(** * Corvid20 bitmask enums: a shallow embedding of
      [includes/enums/bitmask_enum.h] and the properties of its operator
      suite and name-table renderer. *)

From Stdlib Require Import ZArith Bool List String Ascii HexString Lia.
Import ListNotations.
Local Open Scope Z_scope.

(** ** Integer types of the C++ abstract machine *)

Module CInt.

(** The widths an enum's underlying type, [int], [int64_t], [uint64_t] and
    [size_t] can have on the targeted platforms. *)
Inductive int_rank := R8 | R16 | R32 | R64.

Definition rank_bits (r : int_rank) : Z :=
  match r with R8 => 8 | R16 => 16 | R32 => 32 | R64 => 64 end.

Record int_type := Int { rank : int_rank; is_signed : bool }.

Definition width (t : int_type) : Z := rank_bits (rank t).

Definition int_t : int_type := Int R32 true.
Definition int64_t : int_type := Int R64 true.
Definition uint64_t : int_type := Int R64 false.
Definition size_t : int_type := Int R64 false.

Definition min_int (t : int_type) : Z :=
  if is_signed t then - 2 ^ (width t - 1) else 0.

Definition max_int (t : int_type) : Z :=
  if is_signed t then 2 ^ (width t - 1) - 1 else 2 ^ width t - 1.

Definition in_range (t : int_type) (x : Z) : Prop :=
  min_int t <= x <= max_int t.

(** The bit pattern of [x] in a [t]-wide word. *)
Definition unsigned_bits (t : int_type) (x : Z) : Z := x mod 2 ^ width t.

(** Integral conversion to [t] (C++20): the value of [t] congruent to [x]
    modulo [2 ^ width t]. *)
Definition convert (t : int_type) (x : Z) : Z :=
  if is_signed t
  then (x + 2 ^ (width t - 1)) mod 2 ^ width t - 2 ^ (width t - 1)
  else x mod 2 ^ width t.

(** Integral promotion: types narrower than [int] are computed in [int]. *)
Definition promote (t : int_type) : int_type :=
  if width t <? 32 then int_t else t.

(** [~x] on an operand of type [t], after promotion. *)
Definition bit_not (t : int_type) (x : Z) : Z :=
  convert (promote t) (Z.lnot x).

(** [a << n] with [a] of (promoted) type [t]: undefined when the count is
    negative or not below the width; otherwise [a * 2 ^ n] modulo
    [2 ^ width t]. *)
Definition shl (t : int_type) (a n : Z) : option Z :=
  if (0 <=? n) && (n <? width t)
  then Some (convert t (a * 2 ^ n))
  else None.

(** [std::bit_width] of an unsigned value. *)
Definition bit_width (x : Z) : Z :=
  if x =? 0 then 0 else Z.log2 x + 1.

End CInt.
Import CInt.

(** ** The registry entry of an enum *)

(** Modelled from the spec: [wrapclip] is declared in [enums_shared.h]; the
    clip mode is either the default or the "limit" mode. *)
Inductive wrapclip := wrapclip_none | wrapclip_limit.

Definition wrapclip_eqb (a b : wrapclip) : bool :=
  match a, b with
  | wrapclip_none, wrapclip_none | wrapclip_limit, wrapclip_limit => true
  | _, _ => false
  end.

(** Modelled from the spec: [base_spec] of [enum_registry.h] stores the
    template arguments of [bitmask_enum_spec<E, validbits, bitclip>]; the
    enum [E] is represented by its underlying integer type, [validbits] is a
    [uint64_t]. *)
Record bitmask_enum_spec := {
  underlying : int_type;
  validbits : Z;
  bitclip : wrapclip
}.

Section Bitmask.

Variable s : bitmask_enum_spec.

Definition valid_bits_v : Z := validbits s.

Definition bit_clip_v : bool := wrapclip_eqb (bitclip s) wrapclip_limit.

(** The concept [BitmaskEnum]. *)
Definition BitmaskEnum : Prop := valid_bits_v <> 0.

(** A value of [E] is represented by its underlying integer; [E_cast x] is
    the cast [E(x)] of an integer to the enum. *)
Definition E_cast (x : Z) : Z := convert (underlying s) x.

Definition is_E (v : Z) : Prop := in_range (underlying s) v.

Definition do_max_value : Z := E_cast valid_bits_v.

(** *** Operator overloads *)

(** The dereference operator, [as_underlying<E>(v)]. *)
Definition deref (v : Z) : Z := v.

(** [E( *l | *r)] and its siblings: the operands are promoted and combined
    bit by bit; [Z.lor], [Z.land] and [Z.lxor] are the two's complement
    operations at every width, so the cast back to [E] is the only
    conversion. *)
Definition op_or (l r : Z) : Z := E_cast (Z.lor (deref l) (deref r)).

Definition op_and (l r : Z) : Z := E_cast (Z.land (deref l) (deref r)).

Definition op_xor (l r : Z) : Z := E_cast (Z.lxor (deref l) (deref r)).

Definition op_not (v : Z) : Z :=
  if bit_clip_v
  then op_xor v do_max_value
  else E_cast (bit_not (underlying s) (deref v)).

Definition op_plus (l r : Z) : Z := op_or l r.

Definition op_minus (l r : Z) : Z := op_and l (op_not r).

(** The assignment forms take the left operand by reference: [l] is a
    location of the store, the result is the updated store and the returned
    reference. *)
Definition store := nat -> Z.

Definition assign (m : store) (l : nat) (v : Z) : store :=
  fun k => if Nat.eqb k l then v else m k.

Definition op_or_assign (m : store) (l : nat) (r : Z) : store * nat :=
  (assign m l (op_or (m l) r), l).

Definition op_and_assign (m : store) (l : nat) (r : Z) : store * nat :=
  (assign m l (op_and (m l) r), l).

Definition op_xor_assign (m : store) (l : nat) (r : Z) : store * nat :=
  (assign m l (op_xor (m l) r), l).

Definition op_plus_assign (m : store) (l : nat) (r : Z) : store * nat :=
  (assign m l (op_plus (m l) r), l).

Definition op_minus_assign (m : store) (l : nat) (r : Z) : store * nat :=
  (assign m l (op_minus (m l) r), l).

(** *** Traits *)

Definition max_value : Z := do_max_value.

Definition min_value : Z := E_cast 0.

Definition bits_length : Z := bit_width valid_bits_v.

(** [to_integer<T>(v)] is [static_cast<T>(v)]. *)
Definition to_integer (T : int_type) (v : Z) : Z := convert T v.

Definition range_length : Z :=
  convert size_t (to_integer size_t max_value + 1).

(** *** Makers *)

Definition make_safely (u : Z) : Z := op_and (E_cast u) max_value.

Definition make (u : Z) : Z :=
  if bit_clip_v then make_safely u else E_cast u.

(** [make<E>(1 << (ndx - 1))]: [ndx - 1] is [size_t] arithmetic, the shift
    is done on the [int] literal [1], and the [int] result is converted to
    the parameter type of [make], the underlying type. *)
Definition make_at (ndx : Z) : option Z :=
  match shl int_t 1 (convert size_t (ndx - 1)) with
  | Some x => Some (make (convert (underlying s) x))
  | None => None
  end.

(** *** Set, clear, flip *)

Definition set (v m : Z) : Z := op_plus v m.

Definition set_if (v m : Z) (pred : bool) : Z :=
  if pred then op_plus v m else v.

Definition clear (v m : Z) : Z := op_minus v m.

Definition clear_if (v m : Z) (pred : bool) : Z :=
  if pred then op_minus v m else v.

Definition set_to (v m : Z) (value : bool) : Z :=
  if value then op_plus v m else op_minus v m.

Definition flip (v : Z) : Z := op_xor v max_value.

(** *** Set at index *)

(** The index-addressed variants evaluate [make_at<E>(ndx)] only on the
    branch that uses it. *)
Definition set_at (v ndx : Z) : option Z :=
  match make_at ndx with
  | Some m => Some (op_plus v m)
  | None => None
  end.

Definition set_at_if (v ndx : Z) (pred : bool) : option Z :=
  if pred
  then match make_at ndx with
       | Some m => Some (op_plus v m)
       | None => None
       end
  else Some v.

Definition clear_at (v ndx : Z) : option Z :=
  match make_at ndx with
  | Some m => Some (op_minus v m)
  | None => None
  end.

Definition clear_at_if (v ndx : Z) (pred : bool) : option Z :=
  if pred
  then match make_at ndx with
       | Some m => Some (op_minus v m)
       | None => None
       end
  else Some v.

Definition set_at_to (v ndx : Z) (value : bool) : option Z :=
  if value then set_at v ndx else clear_at v ndx.

(** *** Has *)

Definition has (v m : Z) : bool := negb (op_and v m =? E_cast 0).

Definition has_all (v m : Z) : bool := op_and v m =? m.

Definition missing (v m : Z) : bool := negb (has_all v m).

Definition missing_all (v m : Z) : bool := negb (has v m).

End Bitmask.

(** ** Text helpers of [strings/lite.h] and [strings/conversion.h] *)

Local Open Scope string_scope.
Local Open Scope Z_scope.

(** Modelled from the spec: [fixed_split] of [strings/lite.h] partitions a
    literal on the comma, preserving order and keeping the empty pieces of
    adjacent, leading and trailing delimiters. *)
Fixpoint fixed_split (lit : string) : list string :=
  match lit with
  | EmptyString => [EmptyString]
  | String c rest =>
      if Ascii.eqb c ","
      then EmptyString :: fixed_split rest
      else match fixed_split rest with
           | piece :: more => String c piece :: more
           | [] => [String c EmptyString]
           end
  end.

(** [view().starts_with(",")]. *)
Definition starts_with_comma (lit : string) : bool := prefix "," lit.

(** [name.size()] used as a condition, and [!name.empty()]. *)
Definition has_size (name : string) : bool :=
  negb (Nat.eqb (String.length name) 0).

(** Modelled from the spec: [delim::append_skip_first] of [strings/lite.h]
    joins the printed parts: nothing is appended before the first part, the
    delimiter before every later one, and [first] is cleared. *)
Definition append_skip_first (d target : string) (first : bool)
  : string * bool :=
  if first then (target, false) else (target ++ d, false).

(** Modelled from the spec: [append_num<16>] of [strings/conversion.h]
    appends the integer in hexadecimal, lower case, without a prefix (a
    minus sign precedes the digits of a negative value). *)
Definition append_num16 (target : string) (num : Z) : string :=
  target ++
  match num with
  | Z0 => "0"
  | Zpos p => HexString.Raw.of_pos p ""
  | Zneg p => "-" ++ HexString.Raw.of_pos p ""
  end.

(** [names[i]] on a [std::array]: undefined outside the array. *)
Definition names_at (names : list string) (i : Z) : option string :=
  if (0 <=? i) && (i <? Z.of_nat (List.length names))
  then nth_error names (Z.to_nat i)
  else None.

(** ** The name-table renderer *)

Notation "x <- e ;; k" :=
  (match e with Some x => k | None => None end)
  (at level 61, e at next level, right associativity).

(** The locals a rendering loop updates: the text sink, the [first] flag of
    the joiner and the working copy of the value. *)
Record render := Render {
  target : string;
  first : bool;
  working : Z
}.

(** Specialization of [bitmask_enum_spec] with a list of names; [N] is the
    length of the list. *)
Record bitmask_enum_names_spec := {
  base_spec : bitmask_enum_spec;
  names : list string
}.

Section Renderer.

Variable s : bitmask_enum_spec.

Definition plus : string := " + ".

(** Modelled from the spec: [strings::appender{target}.append(name)] of
    [strings/lite.h] appends the characters of [name] to the sink. *)
Definition appender_append (target name : string) : string :=
  String.append target name.

(** The body of [if (...) { append_skip_first; append(name); v = cleared }]. *)
Definition print_name (st : render) (name : string) (cleared : Z) : render :=
  let '(t, f) := append_skip_first plus (target st) (first st) in
  Render (appender_append t name) f cleared.

(** The residual: when the working copy is not zero or nothing was printed,
    [append_num<16>] after the joiner. *)
Definition print_residual (st : render) : string :=
  if negb (deref (working st) =? 0) || first st
  then let '(t, _) := append_skip_first plus (target st) (first st) in
       append_num16 t (deref (working st))
  else target st.

(** One iteration of the loop of [do_bit_append] at index [ndx]. *)
Definition do_bit_append_step (N : nat) (names : list string) (ndx : nat)
  (st : render) : option render :=
  mask <- make_at s (Z.of_nat ndx) ;;
  let ofs := Z.of_nat N - Z.of_nat ndx in
  if has s (working st) mask
  then name <- names_at names ofs ;;
       if has_size name
       then Some (print_name st name
                    (E_cast s (Z.land (deref (working st))
                                 (bit_not (underlying s) (deref mask)))))
       else Some st
  else Some st.

(** [for (size_t ndx = N; ndx != 0; --ndx)]. *)
Fixpoint do_bit_append_loop (N : nat) (names : list string) (ndx : nat)
  (st : render) : option render :=
  match ndx with
  | O => Some st
  | S ndx' =>
      st' <- do_bit_append_step N names ndx st ;;
      do_bit_append_loop N names ndx' st'
  end.

Definition do_bit_append (tgt : string) (v : Z) (names : list string)
  : option string :=
  let N := List.length names in
  st <- do_bit_append_loop N names N (Render tgt true v) ;;
  Some (print_residual st).

(** [size_t all_valid_bits = valid_bits_v<E>]. *)
Definition all_valid_bits : Z := convert size_t (valid_bits_v s).

(** [*v & all_valid_bits], computed in [size_t]. *)
Definition valid_part_of (v : Z) : Z :=
  Z.land (convert size_t (deref v)) all_valid_bits.

(** The loop [for (int64_t ndx = ...; ndx >= 0; --ndx)] of
    [do_value_append]; [k] iterations remain and the current index is
    [k - 1]. The [break] leaves the loop. *)
Fixpoint do_value_append_loop (names : list string) (k : nat) (st : render)
  : option render :=
  match k with
  | O => Some st
  | S k' =>
      let ndx := Z.of_nat k' in
      let mask := E_cast s ndx in
      if has_all s (working st) mask
      then name <- names_at names ndx ;;
           if has_size name
           then let st' :=
                  print_name st name
                    (E_cast s (Z.land (deref (working st))
                                 (bit_not (underlying s) (deref mask)))) in
                if valid_part_of (working st') =? 0
                then Some st'
                else do_value_append_loop names k' st'
           else do_value_append_loop names k' st
      else do_value_append_loop names k' st
  end.

Definition do_value_append (tgt : string) (v : Z) (names : list string)
  : option string :=
  let st0 := Render tgt true v in
  let valid_part := valid_part_of v in
  name <- names_at names valid_part ;;
  let st1 :=
    if has_size name
    then print_name st0 name
           (E_cast s (Z.land (convert size_t (deref v))
                        (convert size_t (Z.lnot all_valid_bits))))
    else st0 in
  st2 <- (if first st1
          then do_value_append_loop names
                 (Z.to_nat (convert int64_t valid_part + 1)) st1
          else Some st1) ;;
  Some (print_residual st2).

End Renderer.

(** [bitmask_enum_names_spec::append]. *)
Definition append (ns : bitmask_enum_names_spec) (tgt : string) (v : Z)
  : option string :=
  let N := Z.of_nat (List.length (names ns)) in
  if N =? bits_length (base_spec ns)
  then do_bit_append (base_spec ns) tgt v (names ns)
  else if negb (N =? 0)
  then do_value_append (base_spec ns) tgt v (names ns)
  else Some (append_num16 tgt (deref v)).

(** ** Construction of the specs *)

(** The outcome of a compile-time construction: the value, or the rejection
    of the program by a failed [static_assert]. *)
Inductive translation (A : Type) : Type :=
| Accepted (a : A)
| Rejected.
Arguments Accepted {A} a.
Arguments Rejected {A}.

Definition make_bitmask_enum_spec0 (U : int_type) (validbits : Z)
  (bitclip : wrapclip) : bitmask_enum_names_spec :=
  {| base_spec := {| underlying := U; validbits := validbits;
                     bitclip := bitclip |};
     names := [] |}.

(** The body of the loop of [calc_valid_bits_from_bit_names] on the locals
    [(valid_bits, pow2)]; the names are visited from the last to the
    first. *)
Definition bit_names_step (st : Z * Z) (name : string) : Z * Z :=
  let '(valid_bits, pow2) := st in
  (if has_size name then Z.lor valid_bits pow2 else valid_bits,
   convert uint64_t (pow2 * 2)).

Definition calc_valid_bits_from_bit_names (bit_names : string)
  : translation Z :=
  if starts_with_comma bit_names
  then Rejected
  else
    let name_array := fixed_split bit_names in
    Accepted (fst (fold_left bit_names_step (rev name_array) (0, 1))).

(** The loop of [calc_valid_bits_from_value_names] from index [i] on. *)
Fixpoint value_names_loop (i : Z) (rest : list string) (valid_bits : Z)
  : Z :=
  match rest with
  | [] => valid_bits
  | name :: more =>
      value_names_loop (i + 1) more
        (if has_size name then Z.lor valid_bits i else valid_bits)
  end.

Definition calc_valid_bits_from_value_names (bit_names : string) : Z :=
  value_names_loop 1 (tl (fixed_split bit_names)) 0.

Definition make_bitmask_enum_spec (U : int_type) (bit_names : string)
  (bitclip : wrapclip) : translation bitmask_enum_names_spec :=
  let name_array := fixed_split bit_names in
  match calc_valid_bits_from_bit_names bit_names with
  | Accepted valid_bits =>
      Accepted {| base_spec := {| underlying := U; validbits := valid_bits;
                                  bitclip := bitclip |};
                  names := name_array |}
  | Rejected => Rejected
  end.

Definition make_bitmask_enum_values_spec (U : int_type) (bit_names : string)
  (bitclip : wrapclip) : bitmask_enum_names_spec :=
  let name_array := fixed_split bit_names in
  let valid_bits := calc_valid_bits_from_value_names bit_names in
  {| base_spec := {| underlying := U; validbits := valid_bits;
                     bitclip := bitclip |};
     names := name_array |}.

(** ** The per-bit rendering in the words of the specification *)

Module PerBitWords.

Section Words.

Variable s : bitmask_enum_spec.

(** Bit [pos] (counted from the least significant bit, from 0) is set in
    the bit pattern of the value. *)
Definition bit_set (v : Z) (pos : Z) : bool :=
  Z.testbit (unsigned_bits (underlying s) (deref v)) pos.

(** The names listed from the most to the least significant bit: the
    names that are printed, those of the set bits with a non-empty name, in
    the order of the list. *)
Fixpoint printed_names (v : Z) (names : list string) : list string :=
  match names with
  | [] => []
  | name :: more =>
      if bit_set v (Z.of_nat (List.length more)) && has_size name
      then name :: printed_names v more
      else printed_names v more
  end.

(** The bits whose names are printed. *)
Fixpoint printed_bits (v : Z) (names : list string) : Z :=
  match names with
  | [] => 0
  | name :: more =>
      if bit_set v (Z.of_nat (List.length more)) && has_size name
      then Z.lor (2 ^ Z.of_nat (List.length more)) (printed_bits v more)
      else printed_bits v more
  end.

(** The working copy after the scan: the value with every printed bit
    cleared. *)
Definition residual (v : Z) (names : list string) : Z :=
  E_cast s (Z.land (deref v) (Z.lnot (printed_bits v names))).

Definition is_nil {A : Type} (l : list A) : bool :=
  match l with [] => true | _ => false end.

(** The printed names and, if any bits remain set or nothing was printed,
    the residual in hexadecimal, all joined by [" + "]. *)
Definition render_bits (tgt : string) (v : Z) (names : list string)
  : string :=
  let residue :=
    if negb (deref (residual v names) =? 0)
       || is_nil (printed_names v names)
    then [append_num16 "" (deref (residual v names))]
    else [] in
  String.append tgt
    (String.concat " + " (printed_names v names ++ residue)%list).

End Words.

End PerBitWords.

(** The parts [parts] appended to [t] by successive
    [append_skip_first]/[append] pairs. *)
Fixpoint join_onto (t : string) (first : bool) (parts : list string)
  : string :=
  match parts with
  | [] => t
  | part :: rest =>
      join_onto (fst (append_skip_first " + " t first) ++ part)%string
        false rest
  end.

(** The locals of [do_bit_append] after the names [suf] of the least
    significant bits were scanned from the locals [st]. *)
Definition scanned (s : bitmask_enum_spec) (st : render)
  (suf : list string) : render :=
  Render
    (join_onto (target st) (first st)
       (PerBitWords.printed_names s (working st) suf))
    (first st
     && PerBitWords.is_nil (PerBitWords.printed_names s (working st) suf))
    (PerBitWords.residual s (working st) suf).

(** The locals [st] of a rendering whose sink already held [tgt]. *)
Definition onto (tgt : string) (st : render) : render :=
  Render (String.append tgt (target st)) (first st) (working st).

(** In the limit mode, every non-empty name of a per-bit table names a
    valid bit (as it does in the tables of [make_bitmask_enum_spec]). *)
Definition names_on_valid_bits (ns : bitmask_enum_names_spec) : Prop :=
  bit_clip_v (base_spec ns) = true ->
  forall pre name more,
    names ns = (pre ++ name :: more)%list -> has_size name = true ->
    Z.testbit (valid_bits_v (base_spec ns))
      (Z.of_nat (List.length more)) = true.

(** ** Auxiliary notions used by the statements *)

(** The bits of an in-range value above the width repeat the sign bit of a
    signed type and are clear for an unsigned one. *)
Definition extended (t : int_type) (x : Z) : Prop :=
  forall i, width t <= i ->
            Z.testbit x i = is_signed t && Z.testbit x (width t - 1).

(** A value none of whose bits lies outside the valid bits. *)
Definition only_valid_bits (s : bitmask_enum_spec) (v : Z) : Prop :=
  op_and s v (max_value s) = v.

(** The enum of the examples: underlying [int], three valid bits. *)
Definition rgb_spec (clip : wrapclip) : bitmask_enum_spec :=
  {| underlying := int_t; validbits := 7; bitclip := clip |}.

(** Enums all of whose bits are valid: underlying [int] and [uint8_t]. *)
Definition all_bits_int_spec : bitmask_enum_spec :=
  {| underlying := int_t; validbits := 2 ^ 32 - 1;
     bitclip := wrapclip_none |}.

Definition all_bits_uint8_spec : bitmask_enum_spec :=
  {| underlying := Int R8 false; validbits := 255;
     bitclip := wrapclip_none |}.

(** The value names [",a,b"]: three entries, indices 1 and 2 named. *)
Definition ab_values_spec : bitmask_enum_names_spec :=
  make_bitmask_enum_values_spec int_t ",a,b" wrapclip_none.

(** The valid bits lie within the underlying type of the enum. *)
Definition fits_underlying (s : bitmask_enum_spec) : Prop :=
  0 <= validbits s < 2 ^ width (underlying s).

(** The indices for which the [int] shift of [make_at] yields the bit of the
    underlying type: those up to 31, and 32 when the underlying type has no
    more than 32 bits. *)
Definition int_shift_reaches (s : bitmask_enum_spec) (ndx : Z) : Prop :=
  ndx <= 31 \/ (ndx <= 32 /\ width (underlying s) <= 32).

(** The bit names ["red,,blue"]: a placeholder leaves bit 1 invalid. *)
Definition red_blue_spec : bitmask_enum_spec :=
  {| underlying := int_t; validbits := 5; bitclip := wrapclip_limit |}.

(** An enum over [uint64_t] with forty valid bits. *)
Definition forty_bits_spec : bitmask_enum_spec :=
  {| underlying := uint64_t; validbits := 2 ^ 40 - 1;
     bitclip := wrapclip_none |}.

(** The value names [",alpha,beta,gamma"] of the rendering example. *)
Definition greek_values_spec : bitmask_enum_names_spec :=
  make_bitmask_enum_values_spec int_t ",alpha,beta,gamma" wrapclip_none.

(** What [do_value_append] leaves of [v] after an exact match: the bits of
    [v] outside the valid bits. *)
Definition unmatched_bits (s : bitmask_enum_spec) (v : Z) : Z :=
  E_cast s (Z.land (convert size_t (deref v))
              (convert size_t (Z.lnot (all_valid_bits s)))).

(** The bit names ["red,green,blue"] of the rendering example. *)
Definition rgb_names_spec : bitmask_enum_names_spec :=
  {| base_spec := rgb_spec wrapclip_none;
     names := ["red"; "green"; "blue"] |}.

(** Thirty-two bit names, for an enum over [uint64_t], and thirty-three. *)
Definition bit32_names : string :=
  "b32,b31,b30,b29,b28,b27,b26,b25,b24,b23,b22,b21,b20,b19,b18,b17,b16,b15,b14,b13,b12,b11,b10,b9,b8,b7,b6,b5,b4,b3,b2,b1".

Definition bit33_names : string := String.append "b33," bit32_names.

Definition bit32_names_spec : bitmask_enum_names_spec :=
  {| base_spec := {| underlying := uint64_t; validbits := 2 ^ 32 - 1;
                     bitclip := wrapclip_none |};
     names := fixed_split bit32_names |}.

Definition bit33_names_spec : bitmask_enum_names_spec :=
  {| base_spec := {| underlying := uint64_t; validbits := 2 ^ 33 - 1;
                     bitclip := wrapclip_none |};
     names := fixed_split bit33_names |}.

(** * Properties *)

(** ** Integer conversions and bit patterns *)

Module CIntFacts.

Lemma width_pos (t : int_type) : 8 <= width t <= 64.
Proof. destruct t as [[] sg]; cbn; lia. Qed.

Lemma promote_width (t : int_type) : width t <= width (promote t).
Proof. destruct t as [[] sg]; cbn; lia. Qed.

Lemma convert_mod (t : int_type) (x : Z) :
  convert t x mod 2 ^ width t = x mod 2 ^ width t.
Proof.
  pose proof (width_pos t) as Hw.
  assert (2 ^ width t <> 0) by (apply Z.pow_nonzero; lia).
  unfold convert. destruct (is_signed t); [|now apply Z.mod_mod].
  rewrite Zminus_mod_idemp_l. f_equal. lia.
Qed.

Lemma convert_testbit (t : int_type) (x i : Z) :
  i < width t -> Z.testbit (convert t x) i = Z.testbit x i.
Proof.
  intros Hi.
  rewrite <- (Z.mod_pow2_bits_low (convert t x) (width t) i Hi).
  rewrite convert_mod. now apply Z.mod_pow2_bits_low.
Qed.

Lemma convert_in_range (t : int_type) (x : Z) : in_range t (convert t x).
Proof.
  unfold in_range, min_int, max_int, convert.
  destruct t as [[] []]; cbn;
    match goal with
    | |- context [?a mod ?m] =>
        pose proof (Z.mod_pos_bound a m ltac:(lia))
    end; lia.
Qed.

Lemma in_range_mod_inj (t : int_type) (a b : Z) :
  in_range t a -> in_range t b ->
  a mod 2 ^ width t = b mod 2 ^ width t -> a = b.
Proof.
  unfold in_range, min_int, max_int.
  destruct t as [[] []]; cbn; intros Ha Hb Hm;
    Z.div_mod_to_equations; lia.
Qed.

Lemma convert_id (t : int_type) (x : Z) : in_range t x -> convert t x = x.
Proof.
  intros Hx. apply (in_range_mod_inj t); auto using convert_in_range.
  apply convert_mod.
Qed.

Lemma mod_pow2_bits_eq (w a b : Z) :
  0 <= w ->
  (forall i, 0 <= i < w -> Z.testbit a i = Z.testbit b i) ->
  a mod 2 ^ w = b mod 2 ^ w.
Proof.
  intros Hw H. apply Z.bits_inj'. intros i Hi.
  rewrite !Z.testbit_mod_pow2 by assumption.
  destruct (Z.ltb_spec i w); cbn; [apply H; lia | reflexivity].
Qed.

(** Two conversions agree as soon as the low [width t] bits agree. *)
Lemma convert_bits_eq (t : int_type) (a b : Z) :
  (forall i, 0 <= i < width t -> Z.testbit a i = Z.testbit b i) ->
  convert t a = convert t b.
Proof.
  intros H. apply (in_range_mod_inj t); auto using convert_in_range.
  rewrite !convert_mod. apply mod_pow2_bits_eq; auto.
  pose proof (width_pos t). lia.
Qed.

Lemma convert_eq_of_bits (t : int_type) (a x : Z) :
  in_range t a ->
  (forall i, 0 <= i < width t -> Z.testbit x i = Z.testbit a i) ->
  convert t x = a.
Proof.
  intros Ha H. rewrite <- (convert_id t a Ha). now apply convert_bits_eq.
Qed.

Lemma in_range_bits_inj (t : int_type) (a b : Z) :
  in_range t a -> in_range t b ->
  (forall i, 0 <= i < width t -> Z.testbit a i = Z.testbit b i) ->
  a = b.
Proof.
  intros Ha Hb H. apply (in_range_mod_inj t); auto.
  apply mod_pow2_bits_eq; auto. pose proof (width_pos t). lia.
Qed.

End CIntFacts.
Import CIntFacts.

(** ** In-range values are the sign- or zero-extended bit patterns *)

Module RangeFacts.

Lemma testbit_above_small (k x i : Z) :
  0 <= x < 2 ^ k -> 0 <= k <= i -> Z.testbit x i = false.
Proof.
  intros Hx Hk. rewrite <- (Z.mod_small x (2 ^ k)) by assumption.
  now apply Z.mod_pow2_bits_high.
Qed.

Lemma testbit_above_small_neg (k x i : Z) :
  - 2 ^ k <= x < 0 -> 0 <= k <= i -> Z.testbit x i = true.
Proof.
  intros Hx Hk.
  replace x with (Z.lnot (- x - 1)) by (unfold Z.lnot; lia).
  rewrite Z.lnot_spec by lia.
  rewrite (testbit_above_small k) by lia. reflexivity.
Qed.

Lemma in_range_extended (t : int_type) (x : Z) :
  in_range t x -> extended t x.
Proof.
  unfold in_range, min_int, max_int, extended.
  pose proof (width_pos t) as Hw. intros Hx i Hi.
  destruct (is_signed t); cbn.
  - destruct (Z.lt_ge_cases x 0).
    + rewrite !(testbit_above_small_neg (width t - 1) x) by lia.
      reflexivity.
    + rewrite !(testbit_above_small (width t - 1) x) by lia.
      reflexivity.
  - apply (testbit_above_small (width t)); lia.
Qed.

Lemma extended_in_range (t : int_type) (x : Z) :
  extended t x -> in_range t x.
Proof.
  intros Hx. pose proof (width_pos t) as Hw.
  assert (x = convert t x) as ->; [|apply convert_in_range].
  apply Z.bits_inj'. intros i Hi.
  destruct (Z.lt_ge_cases i (width t)) as [Hlt|Hge].
  - now rewrite convert_testbit.
  - rewrite (Hx i Hge).
    rewrite (in_range_extended t _ (convert_in_range t x) i Hge).
    rewrite convert_testbit by lia. reflexivity.
Qed.

Lemma land_in_range (t : int_type) (a b : Z) :
  in_range t a -> in_range t b -> in_range t (Z.land a b).
Proof.
  intros Ha%in_range_extended Hb%in_range_extended.
  apply extended_in_range. intros i Hi.
  rewrite !Z.land_spec, (Ha i Hi), (Hb i Hi).
  destruct (is_signed t); reflexivity.
Qed.

Lemma lor_in_range (t : int_type) (a b : Z) :
  in_range t a -> in_range t b -> in_range t (Z.lor a b).
Proof.
  intros Ha%in_range_extended Hb%in_range_extended.
  apply extended_in_range. intros i Hi.
  rewrite !Z.lor_spec, (Ha i Hi), (Hb i Hi).
  destruct (is_signed t); reflexivity.
Qed.

Lemma lxor_in_range (t : int_type) (a b : Z) :
  in_range t a -> in_range t b -> in_range t (Z.lxor a b).
Proof.
  intros Ha%in_range_extended Hb%in_range_extended.
  apply extended_in_range. intros i Hi.
  rewrite !Z.lxor_spec, (Ha i Hi), (Hb i Hi).
  destruct (is_signed t); reflexivity.
Qed.

(** Masking an in-range value of an unsigned type, or of any type when the
    value is not negative, with an arbitrary integer stays in range. *)
Lemma land_l_in_range_nonneg (t : int_type) (a x : Z) :
  in_range t a -> 0 <= a -> in_range t (Z.land a x).
Proof.
  unfold in_range, min_int, max_int. intros Ha Hn.
  assert (0 <= Z.land a x <= a).
  { split; [apply Z.land_nonneg; auto|].
    destruct (Z.eq_dec a 0) as [->|]; [now rewrite Z.land_0_l|].
    assert (0 <= a - Z.land a x); [|lia].
    rewrite (Z.sub_nocarry_ldiff a (Z.land a x)).
    - apply Z.ldiff_nonneg. lia.
    - apply Z.bits_inj'. intros k Hk.
      rewrite Z.ldiff_spec, !Z.land_spec, Z.bits_0.
      destruct (Z.testbit a k), (Z.testbit x k); reflexivity. }
  destruct (is_signed t); lia.
Qed.

Lemma lnot_in_range_signed (t : int_type) (a : Z) :
  is_signed t = true -> in_range t a -> in_range t (Z.lnot a).
Proof.
  unfold in_range, min_int, max_int, Z.lnot. intros ->. lia.
Qed.

End RangeFacts.
Import RangeFacts.

(** ** The operator suite *)

Ltac low_bits :=
  repeat first
    [ rewrite Z.land_spec | rewrite Z.lor_spec | rewrite Z.lxor_spec
    | rewrite Z.lnot_spec by lia
    | rewrite convert_testbit by
        (try match goal with
             | |- _ < width (promote ?t) =>
                 pose proof (promote_width t)
             end; lia) ].

Lemma max_value_is_E (s : bitmask_enum_spec) : is_E s (max_value s).
Proof. apply convert_in_range. Qed.

Lemma op_not_low_bits (s : bitmask_enum_spec) (v i : Z) :
  0 <= i < width (underlying s) ->
  Z.testbit (op_not s v) i =
    if bit_clip_v s
    then xorb (Z.testbit v i) (Z.testbit (valid_bits_v s) i)
    else negb (Z.testbit v i).
Proof.
  intros Hi. unfold op_not, op_xor, do_max_value, E_cast, bit_not, deref.
  destruct (bit_clip_v s); low_bits; reflexivity.
Qed.

Lemma op_minus_no_clip (s : bitmask_enum_spec) (l r : Z) :
  bit_clip_v s = false -> is_E s l -> is_E s r ->
  op_minus s l r = Z.land l (Z.lnot r).
Proof.
  intros Hclip Hl Hr. unfold op_minus, op_and, deref, E_cast.
  apply convert_eq_of_bits.
  - destruct (is_signed (underlying s)) eqn:Hsg.
    + apply land_in_range; auto. now apply lnot_in_range_signed.
    + apply land_l_in_range_nonneg; auto.
      unfold is_E, in_range, min_int in Hl. rewrite Hsg in Hl. lia.
  - intros i Hi. low_bits. rewrite op_not_low_bits, Hclip by assumption.
    reflexivity.
Qed.

Lemma op_minus_clip (s : bitmask_enum_spec) (l r : Z) :
  bit_clip_v s = true -> is_E s l -> is_E s r ->
  op_minus s l r = Z.land l (Z.lxor r (max_value s)).
Proof.
  intros Hclip Hl Hr.
  unfold op_minus, op_not, op_and, op_xor, deref, E_cast. rewrite Hclip.
  fold (E_cast s). fold (do_max_value s). fold (max_value s).
  pose proof (max_value_is_E s) as Hm.
  rewrite (convert_id _ (Z.lxor r (max_value s)))
    by now apply lxor_in_range.
  apply convert_id. apply land_in_range; auto. now apply lxor_in_range.
Qed.

Lemma only_valid_bits_low (s : bitmask_enum_spec) (v i : Z) :
  only_valid_bits s v -> 0 <= i < width (underlying s) ->
  Z.testbit v i = true -> Z.testbit (valid_bits_v s) i = true.
Proof.
  unfold only_valid_bits, op_and, max_value, do_max_value, E_cast, deref.
  intros Hv Hi Hb. rewrite <- Hv in Hb. revert Hb. low_bits.
  now intros [_ ?]%andb_true_iff.
Qed.

(** C1 (as amended). In the default clip mode the difference [l - r] has
    the underlying integer [*l & ~*r], whatever bits [l] and [r] carry. In
    the limit mode [~r] is [r ^ max_value], so [l - r] is
    [*l & ( *r ^ *max_value)]; that is [*l & ~*r] again when [l] has only
    valid bits. In both modes [l -= r] stores the value of [l - r] in [l],
    leaves every other object alone and returns the reference to [l]. *)
Theorem op_minus_clears_right (s : bitmask_enum_spec) (l r : Z) :
  is_E s l -> is_E s r ->
  deref (op_minus s l r) =
    (if bit_clip_v s
     then Z.land (deref l) (Z.lxor (deref r) (deref (max_value s)))
     else Z.land (deref l) (Z.lnot (deref r)))
  /\ (only_valid_bits s l ->
      deref (op_minus s l r) = Z.land (deref l) (Z.lnot (deref r)))
  /\ (forall (m : store) (loc : nat),
        m loc = l ->
        snd (op_minus_assign s m loc r) = loc
        /\ fst (op_minus_assign s m loc r) loc = op_minus s l r
        /\ forall k, k <> loc -> fst (op_minus_assign s m loc r) k = m k).
Proof.
  intros Hl Hr. unfold deref. split; [|split].
  - destruct (bit_clip_v s) eqn:Hclip.
    + now apply op_minus_clip.
    + now apply op_minus_no_clip.
  - intros Hvalid. unfold op_minus, op_and, deref, E_cast.
    apply convert_eq_of_bits.
    + destruct (is_signed (underlying s)) eqn:Hsg.
      * apply land_in_range; auto. now apply lnot_in_range_signed.
      * apply land_l_in_range_nonneg; auto.
        unfold is_E, in_range, min_int in Hl. rewrite Hsg in Hl. lia.
    + intros i Hi. low_bits. rewrite op_not_low_bits by assumption.
      destruct (bit_clip_v s); [|reflexivity].
      destruct (Z.testbit l i) eqn:Hli; [|reflexivity].
      rewrite (only_valid_bits_low s l i Hvalid Hi Hli).
      now destruct (Z.testbit r i).
  - intros m loc Hm. cbn. unfold assign. rewrite Nat.eqb_refl, Hm.
    repeat split. intros k Hk.
    now apply Nat.eqb_neq in Hk as ->.
Qed.

Lemma op_minus_clears_right_witness :
  deref (op_minus (rgb_spec wrapclip_limit) 5 3) = 4.
Proof.
  destruct (op_minus_clears_right (rgb_spec wrapclip_limit) 5 3) as [H _].
  - unfold is_E, in_range; cbn; lia.
  - unfold is_E, in_range; cbn; lia.
  - rewrite H. reflexivity.
Defined.

(** C1 as stated fails in the limit mode: with valid bits [0b111] the
    difference of [E(8)] and [E(8)] keeps bit 3, while [8 & ~8] is 0. *)
Lemma op_minus_limit_keeps_shared_invalid_bit :
  BitmaskEnum (rgb_spec wrapclip_limit)
  /\ bit_clip_v (rgb_spec wrapclip_limit) = true
  /\ is_E (rgb_spec wrapclip_limit) 8
  /\ deref (op_minus (rgb_spec wrapclip_limit) 8 8) = 8
  /\ Z.land (deref 8) (Z.lnot (deref 8)) = 0
  /\ deref (op_minus (rgb_spec wrapclip_limit) 8 8)
     <> Z.land (deref 8) (Z.lnot (deref 8)).
Proof. repeat split; vm_compute; congruence. Qed.

(** C3. [make_safely(u)] is the value of [E] whose underlying integer is
    [u] masked to the valid bits: its bit pattern is the pattern of [u]
    and-ed with [valid_bits_v], for every integer [u], negative or out of
    range, and no bit outside [valid_bits_v] is set in it. For a [u] of the
    underlying type that is not negative the underlying integer is
    literally [u & valid_bits_v]. *)
Theorem make_safely_masks (s : bitmask_enum_spec) (u : Z) :
  make_safely s u = E_cast s (Z.land u (valid_bits_v s))
  /\ is_E s (make_safely s u)
  /\ unsigned_bits (underlying s) (deref (make_safely s u))
     = Z.land (unsigned_bits (underlying s) u) (valid_bits_v s)
  /\ Z.land (unsigned_bits (underlying s) (deref (make_safely s u)))
            (Z.lnot (valid_bits_v s)) = 0
  /\ (is_E s u -> 0 <= u ->
      deref (make_safely s u) = Z.land u (valid_bits_v s)).
Proof.
  pose proof (width_pos (underlying s)) as Hw.
  assert (Hbits : forall i, 0 <= i < width (underlying s) ->
            Z.testbit (make_safely s u) i
            = Z.testbit u i && Z.testbit (valid_bits_v s) i).
  { intros i Hi.
    unfold make_safely, op_and, max_value, do_max_value, E_cast, deref.
    low_bits. reflexivity. }
  split; [|split; [|split; [|split]]]; cycle 4.
  - intros Hu Hnn. unfold deref.
    apply (in_range_bits_inj (underlying s)).
    + apply convert_in_range.
    + now apply land_l_in_range_nonneg.
    + intros i Hi. rewrite Hbits, Z.land_spec by assumption. reflexivity.
  - unfold make_safely, op_and, max_value, do_max_value, E_cast, deref.
    apply convert_bits_eq. intros i Hi. low_bits. reflexivity.
  - apply convert_in_range.
  - unfold unsigned_bits, deref. apply Z.bits_inj'. intros i Hi.
    rewrite Z.land_spec, !Z.testbit_mod_pow2 by lia.
    destruct (Z.ltb_spec i (width (underlying s))); cbn; [|reflexivity].
    apply Hbits. lia.
  - unfold unsigned_bits, deref. apply Z.bits_inj'. intros i Hi.
    rewrite Z.land_spec, Z.lnot_spec, Z.testbit_mod_pow2, Z.bits_0 by lia.
    destruct (Z.ltb_spec i (width (underlying s))); cbn; [|reflexivity].
    rewrite Hbits by lia.
    destruct (Z.testbit u i), (Z.testbit (valid_bits_v s) i); reflexivity.
Qed.

Lemma make_safely_masks_witness :
  deref (make_safely (rgb_spec wrapclip_none) 13) = 5.
Proof.
  destruct (make_safely_masks (rgb_spec wrapclip_none) 13)
    as (_ & _ & _ & _ & H).
  rewrite H.
  - reflexivity.
  - unfold is_E, in_range; cbn; lia.
  - lia.
Defined.

(** C8. Flipping twice gives the value back, also for a value with invalid
    bits; [flip(v)] is [v ^ max_value] and differs from [v] exactly on the
    valid bits. *)
Theorem flip_involutive (s : bitmask_enum_spec) (v : Z) :
  is_E s v ->
  flip s (flip s v) = v
  /\ flip s v = E_cast s (Z.lxor (deref v) (deref (max_value s)))
  /\ forall i, 0 <= i < width (underlying s) ->
       Z.testbit (deref (flip s v)) i
       = xorb (Z.testbit (deref v) i) (Z.testbit (valid_bits_v s) i).
Proof.
  intros Hv. unfold deref.
  assert (Hbits : forall x i, 0 <= i < width (underlying s) ->
            Z.testbit (flip s x) i
            = xorb (Z.testbit x i) (Z.testbit (valid_bits_v s) i)).
  { intros x i Hi.
    unfold flip, op_xor, max_value, do_max_value, E_cast, deref.
    low_bits. reflexivity. }
  split; [|split].
  - unfold flip at 1. unfold op_xor, E_cast, deref.
    apply convert_eq_of_bits; [exact Hv|].
    intros i Hi. rewrite Z.lxor_spec, Hbits by assumption.
    unfold max_value, do_max_value, E_cast. low_bits.
    now destruct (Z.testbit v i), (Z.testbit (valid_bits_v s) i).
  - reflexivity.
  - intros i Hi. now apply Hbits.
Qed.

Lemma flip_involutive_witness :
  flip (rgb_spec wrapclip_none) (flip (rgb_spec wrapclip_none) 13) = 13.
Proof.
  apply (flip_involutive (rgb_spec wrapclip_none) 13).
  unfold is_E, in_range; cbn; lia.
Defined.

(** C9 (as amended). Clearing [m] after setting [m] is clearing [m] alone
    when the clip mode is not the limit mode, or when [m] has only valid
    bits. *)
Theorem clear_after_set (s : bitmask_enum_spec) (v m : Z) :
  bit_clip_v s = false \/ only_valid_bits s m ->
  clear s (set s v m) m = clear s v m.
Proof.
  intros Hm. unfold clear, set, op_plus.
  unfold op_minus, op_and, E_cast, deref.
  apply convert_bits_eq. intros i Hi.
  rewrite !Z.land_spec. unfold op_or, E_cast, deref. low_bits.
  rewrite op_not_low_bits by assumption.
  destruct Hm as [->|Hm].
  - now destruct (Z.testbit v i), (Z.testbit m i).
  - destruct (bit_clip_v s);
      [|now destruct (Z.testbit v i), (Z.testbit m i)].
    destruct (Z.testbit m i) eqn:Hmi.
    + rewrite (only_valid_bits_low s m i Hm Hi Hmi).
      now destruct (Z.testbit v i).
    + now destruct (Z.testbit v i).
Qed.

Lemma clear_after_set_witness :
  clear (rgb_spec wrapclip_limit) (set (rgb_spec wrapclip_limit) 9 3) 3
  = clear (rgb_spec wrapclip_limit) 9 3.
Proof.
  apply (clear_after_set (rgb_spec wrapclip_limit) 9 3).
  right. reflexivity.
Defined.

(** C9 as stated fails in the limit mode when [m] carries an invalid bit:
    with valid bits [0b111], setting and clearing [E(8)] on the zero value
    leaves bit 3 set, clearing alone leaves zero. *)
Lemma clear_after_set_limit_invalid_mask :
  BitmaskEnum (rgb_spec wrapclip_limit)
  /\ bit_clip_v (rgb_spec wrapclip_limit) = true
  /\ is_E (rgb_spec wrapclip_limit) 0 /\ is_E (rgb_spec wrapclip_limit) 8
  /\ clear (rgb_spec wrapclip_limit) (set (rgb_spec wrapclip_limit) 0 8) 8 = 8
  /\ clear (rgb_spec wrapclip_limit) 0 8 = 0
  /\ clear (rgb_spec wrapclip_limit) (set (rgb_spec wrapclip_limit) 0 8) 8
     <> clear (rgb_spec wrapclip_limit) 0 8.
Proof. repeat split; vm_compute; congruence. Qed.

(** ** Traits *)

(** C5 (as amended). [range_length] is [max_value] converted to [size_t],
    plus one, modulo [2 ^ 64]. It is 0 exactly when the converted
    [max_value] is the maximum of [size_t]: when the underlying integer of
    [max_value] is [2 ^ 64 - 1], or is [-1] in a signed underlying type. *)
Theorem range_length_wraps (s : bitmask_enum_spec) :
  range_length s
  = (unsigned_bits size_t (deref (max_value s)) + 1) mod 2 ^ 64
  /\ (range_length s = 0
      <-> to_integer size_t (max_value s) = max_int size_t)
  /\ (range_length s = 0
      <-> (is_signed (underlying s) = true /\ deref (max_value s) = -1)
          \/ deref (max_value s) = 2 ^ 64 - 1).
Proof.
  pose proof (max_value_is_E s) as Hm.
  unfold range_length, to_integer, unsigned_bits, deref.
  unfold is_E, in_range, min_int, max_int in Hm.
  generalize dependent (max_value s). intros m Hm.
  change (convert size_t) with (fun x => x mod 2 ^ 64).
  change (width size_t) with 64. change (max_int size_t) with (2 ^ 64 - 1).
  cbv beta.
  destruct (underlying s) as [[] []]; cbn in Hm |- *;
    (split; [reflexivity|split]);
    Z.div_mod_to_equations; split; intros; try lia;
    try (right; lia); try (left; split; [reflexivity|lia]).
Qed.

(** C5 as stated fails in both directions when "the integer type" is read
    as the underlying type (and in the first also when read as [size_t]):
    with underlying [int] and all 32 bits valid [range_length] is 0 while
    [max_value] is [-1], not a maximum; with underlying [uint8_t] and all
    8 bits valid [max_value] is the maximum 255 and [range_length] is
    256. *)
Lemma range_length_zero_not_at_maximum :
  (BitmaskEnum all_bits_int_spec
   /\ range_length all_bits_int_spec = 0
   /\ deref (max_value all_bits_int_spec) = -1
   /\ deref (max_value all_bits_int_spec)
      <> max_int (underlying all_bits_int_spec)
   /\ deref (max_value all_bits_int_spec) <> max_int size_t)
  /\ (BitmaskEnum all_bits_uint8_spec
      /\ deref (max_value all_bits_uint8_spec)
         = max_int (underlying all_bits_uint8_spec)
      /\ range_length all_bits_uint8_spec = 256
      /\ range_length all_bits_uint8_spec <> 0).
Proof. repeat split; vm_compute; congruence. Qed.

(** ** Construction of name specs *)

(** C10. A bit-name literal that begins with the comma is rejected by the
    asserted precondition of [calc_valid_bits_from_bit_names], and so is
    the construction of the spec by [make_bitmask_enum_spec]: no spec is
    produced for it. *)
Theorem leading_comma_rejected (U : int_type) (bit_names : string)
  (clip : wrapclip) :
  starts_with_comma bit_names = true ->
  calc_valid_bits_from_bit_names bit_names = Rejected
  /\ make_bitmask_enum_spec U bit_names clip = Rejected
  /\ forall ns, make_bitmask_enum_spec U bit_names clip <> Accepted ns.
Proof.
  intros Hc.
  assert (Hcalc : calc_valid_bits_from_bit_names bit_names = Rejected).
  { unfold calc_valid_bits_from_bit_names. now rewrite Hc. }
  assert (Hmake : make_bitmask_enum_spec U bit_names clip = Rejected).
  { unfold make_bitmask_enum_spec. now rewrite Hcalc. }
  repeat split; auto. intros ns. rewrite Hmake. discriminate.
Qed.

Lemma leading_comma_rejected_witness :
  make_bitmask_enum_spec int_t ",red,green" wrapclip_none = Rejected.
Proof.
  apply (leading_comma_rejected int_t ",red,green" wrapclip_none).
  reflexivity.
Defined.

(** ** The per-combination renderer reads past its table *)

(** C4 (the failing input). For the value names [",a,b"] the table has
    three entries and the valid bits are [1 | 2 = 3]; for the valid value
    [E(3)] the direct-lookup index is 3, not below the length, and the
    rendering reads [names[3]] outside the array. *)
Theorem value_lookup_index_reaches_length :
  BitmaskEnum (base_spec ab_values_spec)
  /\ is_E (base_spec ab_values_spec) 3
  /\ List.length (names ab_values_spec) = 3%nat
  /\ valid_bits_v (base_spec ab_values_spec) = 3
  /\ bits_length (base_spec ab_values_spec) = 2
  /\ only_valid_bits (base_spec ab_values_spec) 3
  /\ valid_part_of (base_spec ab_values_spec) 3 = 3
  /\ ~ valid_part_of (base_spec ab_values_spec) 3
       < Z.of_nat (List.length (names ab_values_spec))
  /\ names_at (names ab_values_spec)
       (valid_part_of (base_spec ab_values_spec) 3) = None
  /\ append ab_values_spec "" 3 = None.
Proof. repeat split; vm_compute; congruence. Qed.

(** ** Makers *)

Lemma make_low_bits (s : bitmask_enum_spec) (u i : Z) :
  0 <= i < width (underlying s) ->
  Z.testbit (make s u) i =
    if bit_clip_v s
    then Z.testbit u i && Z.testbit (valid_bits_v s) i
    else Z.testbit u i.
Proof.
  intros Hi.
  unfold make, make_safely, op_and, max_value, do_max_value, E_cast, deref.
  destruct (bit_clip_v s); low_bits; reflexivity.
Qed.

Lemma make_is_E (s : bitmask_enum_spec) (u : Z) : is_E s (make s u).
Proof.
  unfold make, make_safely, op_and, E_cast.
  destruct (bit_clip_v s); apply convert_in_range.
Qed.

Lemma bits_length_le_width (s : bitmask_enum_spec) :
  fits_underlying s -> bits_length s <= width (underlying s).
Proof.
  unfold fits_underlying, bits_length, bit_width, valid_bits_v.
  intros Hf. pose proof (width_pos (underlying s)).
  destruct (Z.eqb_spec (validbits s) 0); [lia|].
  assert (Z.log2 (validbits s) < width (underlying s)); [|lia].
  apply Z.log2_lt_pow2; lia.
Qed.

(** The shift of [make_at] for an index whose bit lies in an [int]. *)
Lemma make_at_small_index (s : bitmask_enum_spec) (ndx : Z) :
  1 <= ndx -> int_shift_reaches s ndx ->
  make_at s ndx = Some (make s (convert (underlying s) (2 ^ (ndx - 1)))).
Proof.
  intros Hn Hreach. unfold make_at, shl.
  assert (ndx <= 32) by (destruct Hreach as [|[]]; lia).
  assert (convert size_t (ndx - 1) = ndx - 1) as ->.
  { apply convert_id. unfold in_range; cbn. lia. }
  replace ((0 <=? ndx - 1) && (ndx - 1 <? width int_t)) with true
    by (symmetry; apply andb_true_iff; split;
        [apply Z.leb_le|apply Z.ltb_lt]; cbn; lia).
  rewrite Z.mul_1_l. do 2 f_equal.
  destruct Hreach as [H31|[_ Hw]].
  - rewrite (convert_id int_t); [reflexivity|].
    unfold in_range; cbn.
    assert (0 < 2 ^ (ndx - 1)) by (apply Z.pow_pos_nonneg; lia).
    assert (2 ^ (ndx - 1) <= 2 ^ 30) by (apply Z.pow_le_mono_r; lia).
    lia.
  - apply convert_bits_eq. intros i Hi.
    apply convert_testbit. cbn. lia.
Qed.

Lemma pattern_of_low_bits (t : int_type) (x k : Z) :
  0 <= k < width t ->
  (forall i, 0 <= i < width t -> Z.testbit x i = (k =? i)) ->
  unsigned_bits t x = 2 ^ k.
Proof.
  intros Hk H. unfold unsigned_bits.
  rewrite <- (Z.mod_small (2 ^ k) (2 ^ width t)).
  - apply mod_pow2_bits_eq; [lia|]. intros i Hi.
    rewrite Z.pow2_bits_eqb by lia. now apply H.
  - split; [apply Z.pow_nonneg; lia|apply Z.pow_lt_mono_r; lia].
Qed.

Lemma in_range_of_pattern (t : int_type) (m x : Z) :
  in_range t m -> in_range t x ->
  unsigned_bits t m = x mod 2 ^ width t -> m = x.
Proof. unfold unsigned_bits. apply in_range_mod_inj. Qed.

Lemma pow2_in_range (t : int_type) (k : Z) :
  0 <= k -> (if is_signed t then k < width t - 1 else k < width t) ->
  in_range t (2 ^ k).
Proof.
  intros Hk Hlt. unfold in_range, min_int, max_int.
  assert (0 < 2 ^ k) by (apply Z.pow_pos_nonneg; lia).
  pose proof (width_pos t).
  destruct (is_signed t).
  - assert (2 ^ k < 2 ^ (width t - 1)) by (apply Z.pow_lt_mono_r; lia).
    assert (0 < 2 ^ (width t - 1)) by (apply Z.pow_pos_nonneg; lia). lia.
  - assert (2 ^ k < 2 ^ width t) by (apply Z.pow_lt_mono_r; lia). lia.
Qed.

(** C2 (as amended). For an index [ndx] from 1 to [bits_length] that is at
    most 31, or any such index when the underlying type has at most 32
    bits, [make_at(ndx)] is the value with exactly the bit at position
    [ndx] set, its underlying integer being [2 ^ (ndx - 1)] (in a signed
    type of that very width: the minimum, whose pattern is that bit),
    provided the clip mode is not the limit mode or the bit is a valid bit;
    in the limit mode an index of an invalid bit gives the zero value. *)
Theorem make_at_single_bit (s : bitmask_enum_spec) (ndx : Z) :
  fits_underlying s ->
  1 <= ndx <= bits_length s ->
  ndx <= 31 \/ width (underlying s) <= 32 ->
  (bit_clip_v s = false \/ Z.testbit (valid_bits_v s) (ndx - 1) = true ->
   exists m,
     make_at s ndx = Some m /\ is_E s m
     /\ unsigned_bits (underlying s) (deref m) = 2 ^ (ndx - 1)
     /\ (is_signed (underlying s) = false \/ ndx < width (underlying s) ->
         deref m = 2 ^ (ndx - 1)))
  /\ (bit_clip_v s = true ->
      Z.testbit (valid_bits_v s) (ndx - 1) = false ->
      make_at s ndx = Some (min_value s)).
Proof.
  intros Hfit Hndx H31.
  pose proof (bits_length_le_width s Hfit) as Hlen.
  pose proof (width_pos (underlying s)) as Hw.
  rewrite make_at_small_index
    by (try lia; unfold int_shift_reaches; lia).
  set (u := convert (underlying s) (2 ^ (ndx - 1))).
  assert (Hu : forall i, 0 <= i < width (underlying s) ->
             Z.testbit u i = (ndx - 1 =? i)).
  { intros i Hi. unfold u. rewrite convert_testbit by lia.
    apply Z.pow2_bits_eqb. lia. }
  split.
  - intros Hok. exists (make s u).
    assert (Hpat : unsigned_bits (underlying s) (make s u) = 2 ^ (ndx - 1)).
    { apply pattern_of_low_bits; [lia|]. intros i Hi.
      rewrite make_low_bits, Hu by assumption.
      destruct Hok as [->|Hv]; [reflexivity|].
      destruct (bit_clip_v s); [|reflexivity].
      destruct (Z.eqb_spec (ndx - 1) i) as [<-|]; [|reflexivity].
      now rewrite Hv. }
    split; [reflexivity|]. split; [apply make_is_E|].
    split; [exact Hpat|].
    intros Hsg. unfold deref.
    apply (in_range_of_pattern (underlying s)); [apply make_is_E| |].
    + apply pow2_in_range; [lia|].
      destruct Hsg as [->|Hlt]; [lia|].
      destruct (is_signed (underlying s)); lia.
    + rewrite Hpat. symmetry. apply Z.mod_small.
      split; [apply Z.pow_nonneg; lia|apply Z.pow_lt_mono_r; lia].
  - intros Hclip Hv. f_equal. unfold min_value, E_cast.
    symmetry. apply convert_eq_of_bits; [apply make_is_E|].
    intros i Hi. rewrite make_low_bits, Hu, Hclip, Z.bits_0 by assumption.
    destruct (Z.eqb_spec (ndx - 1) i) as [<-|]; [|reflexivity].
    now rewrite Hv.
Qed.

Lemma make_at_single_bit_witness :
  exists m, make_at (rgb_spec wrapclip_limit) 3 = Some m /\ deref m = 4.
Proof.
  destruct (make_at_single_bit (rgb_spec wrapclip_limit) 3)
    as [[m (Hm & _ & _ & Hv)] _].
  - unfold fits_underlying; cbn; lia.
  - vm_compute. split; discriminate.
  - left. lia.
  - right. reflexivity.
  - exists m. split; [exact Hm|]. apply Hv. right. cbn. lia.
Defined.

(** C2 as stated fails in the limit mode when the valid bits have a gap:
    the bit names ["red,,blue"] give the valid bits [0b101], index 2 is
    within [bits_length = 3], and [make_at(2)] is the zero value. *)
Lemma make_at_limit_invalid_bit :
  make_bitmask_enum_spec int_t "red,,blue" wrapclip_limit
  = Accepted {| base_spec := red_blue_spec;
                names := ["red"; ""; "blue"] |}
  /\ BitmaskEnum red_blue_spec
  /\ bit_clip_v red_blue_spec = true
  /\ bits_length red_blue_spec = 3
  /\ make_at red_blue_spec 2 = Some 0
  /\ make_at red_blue_spec 2 <> Some (2 ^ (2 - 1)).
Proof. repeat split; vm_compute; congruence. Qed.

(** The shift of [make_at] is done on an [int]: index 32 of a 64-bit enum
    yields the sign-extended [INT_MIN], and from index 33 on the shift count
    is not below the width of [int]. *)
Lemma make_at_wide_index :
  bits_length forty_bits_spec = 40
  /\ make_at forty_bits_spec 32 = Some (2 ^ 64 - 2 ^ 31)
  /\ make_at forty_bits_spec 33 = None
  /\ make_at forty_bits_spec 40 = None.
Proof. repeat split; vm_compute; congruence. Qed.

(** ** The per-combination renderer: exact match *)

Lemma unmatched_bits_low (s : bitmask_enum_spec) (v i : Z) :
  0 <= i < width (underlying s) ->
  Z.testbit (unmatched_bits s v) i
  = Z.testbit v i && negb (Z.testbit (valid_bits_v s) i).
Proof.
  intros Hi. pose proof (width_pos (underlying s)) as Hw.
  unfold unmatched_bits, all_valid_bits, E_cast, deref.
  change (width size_t) with 64 || idtac.
  rewrite convert_testbit, Z.land_spec by lia.
  rewrite !(convert_testbit size_t) by (cbn; lia).
  rewrite Z.lnot_spec by lia.
  rewrite (convert_testbit size_t) by (cbn; lia). reflexivity.
Qed.

(** C6. In the per-combination mode, when the valid-bit portion of the
    value indexes a non-empty name, rendering appends that name and nothing
    else of the table; the valid bits are consumed, only the invalid bits of
    the value are left and, when there are any, follow in hexadecimal after
    the joiner. A value with only valid bits renders as exactly the name. *)
Theorem value_append_exact_match (ns : bitmask_enum_names_spec)
  (tgt : string) (v : Z) (name : string) :
  Z.of_nat (List.length (names ns)) <> bits_length (base_spec ns) ->
  names_at (names ns) (valid_part_of (base_spec ns) v) = Some name ->
  has_size name = true ->
  append ns tgt v
  = Some (if deref (unmatched_bits (base_spec ns) v) =? 0
          then (tgt ++ name)%string
          else append_num16 ((tgt ++ name) ++ " + ")%string
                 (deref (unmatched_bits (base_spec ns) v)))
  /\ (fits_underlying (base_spec ns) ->
      valid_part_of (base_spec ns) (unmatched_bits (base_spec ns) v) = 0)
  /\ (only_valid_bits (base_spec ns) v ->
      append ns tgt v = Some (tgt ++ name)%string).
Proof.
  intros Hmode Hname Hsize.
  set (s := base_spec ns) in *.
  pose proof (width_pos (underlying s)) as Hw.
  assert (Happ : append ns tgt v
            = Some (if deref (unmatched_bits s v) =? 0
                    then (tgt ++ name)%string
                    else append_num16 ((tgt ++ name) ++ " + ")%string
                           (deref (unmatched_bits s v)))).
  { unfold append. fold s.
    destruct (Z.eqb_spec (Z.of_nat (List.length (names ns)))
                (bits_length s)) as [|_]; [contradiction|].
    assert ((Z.of_nat (List.length (names ns)) =? 0) = false) as ->.
    { apply Z.eqb_neq. intros H0. unfold names_at in Hname.
      rewrite H0 in Hname.
      destruct (valid_part_of s v); cbn in Hname; discriminate. }
    cbn [negb]. unfold do_value_append. rewrite Hname, Hsize.
    unfold print_name, append_skip_first, appender_append.
    cbn [first target working].
    fold (unmatched_bits s v). unfold print_residual.
    cbn [first target working]. unfold append_skip_first, plus.
    rewrite orb_false_r.
    now destruct (deref (unmatched_bits s v) =? 0). }
  split; [exact Happ|split].
  - intros Hfit. unfold valid_part_of, all_valid_bits, deref.
    apply Z.bits_inj'. intros i Hi. rewrite Z.land_spec, Z.bits_0.
    destruct (Z.lt_ge_cases i (width (underlying s))) as [Hlt|Hge].
    + rewrite !(convert_testbit size_t) by (cbn; lia).
      rewrite unmatched_bits_low by lia.
      now destruct (Z.testbit v i), (Z.testbit (valid_bits_v s) i).
    + change (convert size_t) with (fun x => x mod 2 ^ 64). cbv beta.
      rewrite (Z.testbit_mod_pow2 (valid_bits_v s)) by lia.
      unfold valid_bits_v.
      rewrite (testbit_above_small (width (underlying s)) (validbits s))
        by (unfold fits_underlying in Hfit; lia).
      now rewrite andb_false_r, andb_false_r.
  - intros Hvalid. rewrite Happ.
    assert (unmatched_bits s v = 0) as ->; [|reflexivity].
    apply (in_range_bits_inj (underlying s)).
    + apply convert_in_range.
    + unfold in_range, min_int, max_int.
      destruct (underlying s) as [[] []]; cbn; lia.
    + intros i Hi.
      rewrite unmatched_bits_low, Z.bits_0 by assumption.
      destruct (Z.testbit v i) eqn:Hvi; [|reflexivity].
      now rewrite (only_valid_bits_low s v i Hvalid Hi Hvi).
Qed.

(** The scenario of C6: with the value names [",alpha,beta,gamma"] the raw
    value 3 renders as exactly ["gamma"]. *)
Lemma value_append_exact_match_gamma :
  append greek_values_spec "" 3 = Some "gamma"%string.
Proof.
  apply (value_append_exact_match greek_values_spec "" 3 "gamma").
  - vm_compute. discriminate.
  - reflexivity.
  - reflexivity.
  - reflexivity.
Defined.

(** ** The per-bit renderer *)

Module JoinFacts.

Lemma string_app_assoc (a b c : string) :
  ((a ++ b) ++ c)%string = (a ++ b ++ c)%string.
Proof. induction a as [|ch a IH]; cbn; [reflexivity|now rewrite IH]. Qed.

Lemma string_app_nil_r (a : string) : (a ++ "")%string = a.
Proof. induction a as [|ch a IH]; cbn; [reflexivity|now rewrite IH]. Qed.

Lemma append_num16_onto (t : string) (num : Z) :
  append_num16 t num = (t ++ append_num16 "" num)%string.
Proof. reflexivity. Qed.

Lemma join_onto_later (parts : list string) (t : string) :
  join_onto t false parts = (t ++ join_onto "" false parts)%string.
Proof.
  revert t. induction parts as [|p rest IH]; intros t; cbn.
  - now rewrite string_app_nil_r.
  - rewrite IH. symmetry. rewrite IH. symmetry.
    rewrite !string_app_assoc. reflexivity.
Qed.

Lemma concat_as_join (p : string) (rest : list string) :
  String.concat " + " (p :: rest)
  = (p ++ join_onto "" false rest)%string.
Proof.
  revert p. induction rest as [|q rest IH]; intros p.
  - cbn. now rewrite string_app_nil_r.
  - change (String.concat " + " (p :: q :: rest))
      with (p ++ " + " ++ String.concat " + " (q :: rest))%string.
    cbn [join_onto append_skip_first fst].
    rewrite (join_onto_later rest). rewrite IH.
    try rewrite !string_app_assoc. reflexivity.
Qed.

Lemma join_onto_first (parts : list string) (t : string) :
  join_onto t true parts = (t ++ String.concat " + " parts)%string.
Proof.
  destruct parts as [|p rest].
  - cbn. now rewrite string_app_nil_r.
  - rewrite concat_as_join. cbn [join_onto append_skip_first fst].
    rewrite join_onto_later. now rewrite string_app_assoc.
Qed.

Lemma join_onto_snoc (parts : list string) (t x : string) (f : bool) :
  join_onto t f (parts ++ [x])%list
  = (fst (append_skip_first " + " (join_onto t f parts)
            (f && PerBitWords.is_nil parts)) ++ x)%string.
Proof.
  revert t f. induction parts as [|p rest IH]; intros t f.
  - cbn. now rewrite andb_true_r.
  - cbn [app join_onto]. rewrite IH. cbn. now rewrite andb_false_r.
Qed.

End JoinFacts.
Import JoinFacts.

Module PerBitFacts.

Import PerBitWords.

Section Scan.

Variable s : bitmask_enum_spec.

Lemma E_cast_zero : E_cast s 0 = 0.
Proof.
  apply convert_id. unfold in_range, min_int, max_int.
  destruct (underlying s) as [[] []]; cbn; lia.
Qed.

Lemma bit_set_low (v pos : Z) :
  bit_set s v pos = (pos <? width (underlying s)) && Z.testbit v pos.
Proof.
  unfold bit_set, unsigned_bits, deref. apply Z.testbit_mod_pow2.
  pose proof (width_pos (underlying s)). lia.
Qed.

Lemma bit_mask_low (pos i : Z) :
  0 <= pos -> 0 <= i < width (underlying s) ->
  Z.testbit (make s (convert (underlying s) (2 ^ pos))) i
  = (pos =? i)
    && (if bit_clip_v s then Z.testbit (valid_bits_v s) i else true).
Proof.
  intros Hp Hi. rewrite make_low_bits by assumption.
  rewrite convert_testbit, Z.pow2_bits_eqb by lia.
  destruct (bit_clip_v s); [reflexivity|now rewrite andb_true_r].
Qed.

Lemma has_bit_mask (w pos : Z) :
  0 <= pos ->
  has s w (make s (convert (underlying s) (2 ^ pos)))
  = bit_set s w pos
    && (if bit_clip_v s then Z.testbit (valid_bits_v s) pos else true).
Proof.
  intros Hp. pose proof (width_pos (underlying s)) as Hw.
  unfold has. rewrite E_cast_zero, bit_set_low.
  set (mask := make s (convert (underlying s) (2 ^ pos))).
  assert (Hx : forall i, 0 <= i < width (underlying s) ->
            Z.testbit (op_and s w mask) i
            = Z.testbit w i
              && ((pos =? i)
                  && (if bit_clip_v s
                      then Z.testbit (valid_bits_v s) i else true))).
  { intros i Hi. unfold op_and, E_cast, deref.
    rewrite convert_testbit, Z.land_spec by lia.
    unfold mask. now rewrite bit_mask_low. }
  assert (Hzero : (forall i, 0 <= i < width (underlying s) ->
                     Z.testbit (op_and s w mask) i = false) ->
                  op_and s w mask = 0).
  { intros H. apply (in_range_bits_inj (underlying s)).
    - apply convert_in_range.
    - rewrite <- E_cast_zero. apply convert_in_range.
    - intros i Hi. now rewrite H, Z.bits_0. }
  destruct (Z.ltb_spec pos (width (underlying s))) as [Hlt|Hge]; cbn [andb].
  - destruct (Z.testbit w pos
              && (if bit_clip_v s
                  then Z.testbit (valid_bits_v s) pos else true)) eqn:Hb.
    + apply negb_true_iff, Z.eqb_neq. intros H0.
      specialize (Hx pos ltac:(lia)).
      rewrite H0, Z.bits_0, Z.eqb_refl in Hx. cbn [andb] in Hx.
      rewrite Hb in Hx. discriminate.
    + apply negb_false_iff, Z.eqb_eq, Hzero. intros i Hi. rewrite Hx by lia.
      destruct (Z.eqb_spec pos i) as [<-|]; [exact Hb|].
      now rewrite andb_false_r.
  - apply negb_false_iff, Z.eqb_eq, Hzero. intros i Hi. rewrite Hx by lia.
    destruct (Z.eqb_spec pos i); [lia|now rewrite andb_false_r].
Qed.

(** The working copy after the bit at [pos] was printed. *)
Lemma cleared_low (w pos i : Z) :
  0 <= pos -> 0 <= i < width (underlying s) ->
  (if bit_clip_v s then Z.testbit (valid_bits_v s) pos else true) = true ->
  Z.testbit
    (E_cast s
       (Z.land (deref w)
          (bit_not (underlying s)
             (deref (make s (convert (underlying s) (2 ^ pos)))))))
    i
  = Z.testbit w i && negb (pos =? i).
Proof.
  intros Hp Hi Hv. unfold E_cast, bit_not, deref.
  pose proof (promote_width (underlying s)).
  rewrite convert_testbit, Z.land_spec, convert_testbit, Z.lnot_spec by lia.
  rewrite bit_mask_low by lia.
  destruct (Z.eqb_spec pos i) as [<-|]; [now rewrite Hv|reflexivity].
Qed.

Lemma printed_ext (a b : Z) (l : list string) :
  (forall i, 0 <= i < Z.of_nat (List.length l) ->
             bit_set s a i = bit_set s b i) ->
  printed_names s a l = printed_names s b l
  /\ printed_bits s a l = printed_bits s b l.
Proof.
  induction l as [|name more IH]; intros H; [now split|].
  cbn [printed_names printed_bits List.length] in *.
  rewrite (H (Z.of_nat (List.length more))) by lia.
  destruct IH as [IHn IHb]; [intros i Hi; apply H; lia|].
  rewrite IHn, IHb. now split.
Qed.

End Scan.

End PerBitFacts.
Import PerBitFacts.

Lemma names_at_middle (pre more : list string) (name : string) :
  names_at (pre ++ name :: more)%list (Z.of_nat (List.length pre))
  = Some name.
Proof.
  unfold names_at. rewrite length_app. cbn [List.length].
  replace ((0 <=? Z.of_nat (List.length pre))
           && (Z.of_nat (List.length pre)
               <? Z.of_nat (List.length pre + S (List.length more))))
    with true
    by (symmetry; apply andb_true_iff; split;
        [apply Z.leb_le|apply Z.ltb_lt]; lia).
  rewrite Nat2Z.id, nth_error_app2 by lia.
  now rewrite Nat.sub_diag.
Qed.

Lemma print_name_fields (st : render) (name : string) (cleared : Z) :
  target (print_name st name cleared)
  = (fst (append_skip_first " + " (target st) (first st)) ++ name)%string
  /\ first (print_name st name cleared) = false
  /\ working (print_name st name cleared) = cleared.
Proof.
  unfold print_name, append_skip_first, appender_append, plus.
  now destruct (first st).
Qed.

Lemma residual_skip (s : bitmask_enum_spec) (w : Z) (name : string)
  (more : list string) :
  PerBitWords.bit_set s w (Z.of_nat (List.length more)) && has_size name
  = false ->
  PerBitWords.residual s w (name :: more) = PerBitWords.residual s w more.
Proof.
  intros H. unfold PerBitWords.residual.
  cbn [PerBitWords.printed_bits]. now rewrite H.
Qed.

Lemma scanned_nil (s : bitmask_enum_spec) (st : render) :
  is_E s (working st) -> scanned s st [] = st.
Proof.
  intros Hw. destruct st as [t f w]. unfold scanned. cbn in *.
  rewrite andb_true_r. f_equal.
  unfold PerBitWords.residual, deref. cbn.
  rewrite Z.land_m1_r. now apply convert_id.
Qed.

(** The loop of [do_bit_append] computes the scan of the specification
    when the shifts of [make_at] reach the bits of the table. *)
Lemma do_bit_append_loop_scans (s : bitmask_enum_spec)
  (names : list string) :
  int_shift_reaches s (Z.of_nat (List.length names)) ->
  forall (suf pre : list string) (st : render),
    names = (pre ++ suf)%list ->
    is_E s (working st) ->
    (bit_clip_v s = true ->
     forall p name more,
       suf = (p ++ name :: more)%list -> has_size name = true ->
       Z.testbit (valid_bits_v s) (Z.of_nat (List.length more)) = true) ->
    do_bit_append_loop s (List.length names) names (List.length suf) st
    = Some (scanned s st suf).
Proof.
  intros Hlen. induction suf as [|name more IH]; intros pre st Hnames Hw Hval.
  - cbn. now rewrite scanned_nil.
  - assert (Hlen' : List.length names
                    = (List.length pre + S (List.length more))%nat)
      by (now rewrite Hnames, length_app).
    cbn [List.length do_bit_append_loop]. unfold do_bit_append_step.
    rewrite make_at_small_index
      by (try lia; unfold int_shift_reaches in *; lia).
    replace (Z.of_nat (S (List.length more)) - 1)
      with (Z.of_nat (List.length more)) by lia.
    rewrite has_bit_mask by lia.
    replace (Z.of_nat (List.length names)
             - Z.of_nat (S (List.length more)))
      with (Z.of_nat (List.length pre))
      by (rewrite Hnames, length_app; cbn [List.length]; lia).
    rewrite Hnames at 1. rewrite names_at_middle.
    assert (Hnext : names = ((pre ++ [name]) ++ more)%list)
      by (now rewrite <- app_assoc).
    assert (Hval' : bit_clip_v s = true ->
              forall p name0 more0,
                more = (p ++ name0 :: more0)%list ->
                has_size name0 = true ->
                Z.testbit (valid_bits_v s)
                  (Z.of_nat (List.length more0)) = true).
    { intros Hc p name0 more0 Hm. apply (Hval Hc (name :: p)).
      now rewrite Hm. }
    set (pos := Z.of_nat (List.length more)).
    assert (Hvalid : has_size name = true ->
              (if bit_clip_v s
               then Z.testbit (valid_bits_v s) pos else true) = true).
    { intros Hs. destruct (bit_clip_v s) eqn:Hc; [|reflexivity].
      now apply (Hval eq_refl [] name more). }
    unfold scanned.
    cbn [PerBitWords.printed_names PerBitWords.printed_bits].
    fold pos.
    destruct (has_size name) eqn:Hs.
    + rewrite (Hvalid eq_refl), !andb_true_r.
      destruct (PerBitWords.bit_set s (working st) pos) eqn:Hb.
      * set (w' := E_cast s _).
        rewrite (IH (pre ++ [name])%list (print_name st name w') Hnext)
          by (try exact Hval';
              unfold print_name, append_skip_first;
              destruct (first st); cbn; apply convert_in_range).
        assert (Hlow : forall i, 0 <= i < width (underlying s) ->
                  Z.testbit w' i
                  = Z.testbit (working st) i && negb (pos =? i)).
        { intros i Hi. unfold w'.
          apply cleared_low; [unfold pos; lia|exact Hi|now apply Hvalid]. }
        assert (Hwork : working (print_name st name w') = w')
          by (unfold print_name, append_skip_first;
              now destruct (first st)).
        destruct (printed_ext s w' (working st) more) as [Hpn Hpb].
        { intros i Hi. rewrite !bit_set_low.
          destruct (Z.ltb_spec i (width (underlying s))); [|reflexivity].
          cbn [andb]. rewrite Hlow by lia.
          destruct (Z.eqb_spec pos i); [unfold pos in *; lia|].
          now rewrite andb_true_r. }
        destruct (print_name_fields st name w') as (Ht & Hf & _).
        unfold scanned. rewrite Hwork, Hpn, Ht, Hf.
        cbn [join_onto andb PerBitWords.is_nil]. rewrite andb_false_r.
        do 2 f_equal.
        unfold PerBitWords.residual.
        cbn [PerBitWords.printed_bits]. fold pos. rewrite Hb, Hs, Hpb.
        cbn [andb]. unfold E_cast, deref. apply convert_bits_eq.
        intros i Hi.
        rewrite !Z.land_spec, !Z.lnot_spec, Z.lor_spec by lia.
        rewrite Hlow, Z.pow2_bits_eqb by (unfold pos; lia).
        generalize (Z.testbit (working st) i), (pos =? i),
          (Z.testbit (PerBitWords.printed_bits s (working st) more) i).
        intros [] [] []; reflexivity.
      * rewrite (IH (pre ++ [name])%list st Hnext Hw Hval').
        unfold scanned. rewrite (residual_skip s (working st) name more).
        -- reflexivity.
        -- fold pos. now rewrite Hb.
    + rewrite !andb_false_r.
      assert (Hgoal : do_bit_append_loop s (List.length names) names
                        (List.length more) st
                      = Some (scanned s st (name :: more))).
      { rewrite (IH (pre ++ [name])%list st Hnext Hw Hval').
        unfold scanned. cbn [PerBitWords.printed_names]. fold pos.
        rewrite Hs, andb_false_r.
        rewrite (residual_skip s (working st) name more).
        - reflexivity.
        - now rewrite Hs, andb_false_r. }
      unfold scanned in Hgoal. cbn [PerBitWords.printed_names] in Hgoal.
      fold pos in Hgoal. rewrite Hs, andb_false_r in Hgoal.
      destruct (PerBitWords.bit_set s (working st) pos
                && (if bit_clip_v s
                    then Z.testbit (valid_bits_v s) pos else true));
        exact Hgoal.
Qed.

Lemma print_residual_scanned (s : bitmask_enum_spec) (tgt : string)
  (v : Z) (names : list string) :
  print_residual (scanned s (Render tgt true v) names)
  = PerBitWords.render_bits s tgt v names.
Proof.
  unfold print_residual, scanned, PerBitWords.render_bits.
  cbn [target first working andb].
  destruct (negb (deref (PerBitWords.residual s v names) =? 0)
            || PerBitWords.is_nil (PerBitWords.printed_names s v names)).
  - rewrite <- join_onto_first, join_onto_snoc. cbn [andb].
    unfold plus.
    destruct (append_skip_first " + "
                (join_onto tgt true (PerBitWords.printed_names s v names))
                (PerBitWords.is_nil (PerBitWords.printed_names s v names)))
      as [t f].
    apply append_num16_onto.
  - now rewrite app_nil_r, join_onto_first.
Qed.

(** For a table of at most 31 names (32 when the underlying type has no
    more than 32 bits), [do_bit_append] renders what the specification
    describes: the names of the set bits that have a
    non-empty name, from the most to the least significant bit, and the
    residual in hexadecimal if bits remain or nothing was printed, joined
    by [" + "]. *)
Lemma do_bit_append_renders (ns : bitmask_enum_names_spec) (tgt : string)
  (v : Z) :
  int_shift_reaches (base_spec ns) (Z.of_nat (List.length (names ns))) ->
  is_E (base_spec ns) v ->
  names_on_valid_bits ns ->
  do_bit_append (base_spec ns) tgt v (names ns)
  = Some (PerBitWords.render_bits (base_spec ns) tgt v (names ns)).
Proof.
  intros Hlen Hv Hvalid. unfold do_bit_append.
  rewrite (do_bit_append_loop_scans (base_spec ns) (names ns) Hlen
             (names ns) [] (Render tgt true v) eq_refl Hv).
  - now rewrite print_residual_scanned.
  - intros Hc p name more Hsplit. now apply (Hvalid Hc p).
Qed.

Lemma append_per_bit (ns : bitmask_enum_names_spec) (tgt : string)
  (v : Z) :
  Z.of_nat (List.length (names ns)) = bits_length (base_spec ns) ->
  int_shift_reaches (base_spec ns) (Z.of_nat (List.length (names ns))) ->
  is_E (base_spec ns) v ->
  names_on_valid_bits ns ->
  append ns tgt v
  = Some (PerBitWords.render_bits (base_spec ns) tgt v (names ns)).
Proof.
  intros Hmode Hlen Hv Hvalid. unfold append.
  rewrite Hmode, Z.eqb_refl. now apply do_bit_append_renders.
Qed.

(** The scenario of the per-bit mode: with the bit names
    ["red,green,blue"], red and blue set render as ["red + blue"], and with
    bit 3 set in addition as ["red + blue + 8"]. *)
Lemma append_red_blue :
  make_bitmask_enum_spec int_t "red,green,blue" wrapclip_none
  = Accepted rgb_names_spec
  /\ append rgb_names_spec "" 5 = Some "red + blue"%string
  /\ append rgb_names_spec "" 13 = Some "red + blue + 8"%string.
Proof.
  split; [reflexivity|].
  split.
  - rewrite (append_per_bit rgb_names_spec "" 5).
    + reflexivity.
    + reflexivity.
    + left. cbn. lia.
    + unfold is_E, in_range; cbn; lia.
    + intros Hc. discriminate Hc.
  - rewrite (append_per_bit rgb_names_spec "" 13).
    + reflexivity.
    + reflexivity.
    + left. cbn. lia.
    + unfold is_E, in_range; cbn; lia.
    + intros Hc. discriminate Hc.
Qed.

(** C7 (the failing input). The masks of [do_bit_append] come from
    [make_at], whose shift is done on an [int]. For an enum over [uint64_t]
    with 32 bit names the mask of the most significant name is the
    sign-extended [INT_MIN]: the value [E(1 << 32)], none of whose named
    bits is set, renders as the name ["b32"] and loses its residual, where
    the described rendering is the residual ["100000000"]. With 33 names
    the first shift count is 32, not below the width of [int], for every
    value. *)
Theorem do_bit_append_wide_enum :
  make_bitmask_enum_spec uint64_t bit32_names wrapclip_none
  = Accepted bit32_names_spec
  /\ BitmaskEnum (base_spec bit32_names_spec)
  /\ Z.of_nat (List.length (names bit32_names_spec))
     = bits_length (base_spec bit32_names_spec)
  /\ is_E (base_spec bit32_names_spec) (2 ^ 32)
  /\ PerBitWords.printed_names (base_spec bit32_names_spec) (2 ^ 32)
       (names bit32_names_spec) = []
  /\ PerBitWords.render_bits (base_spec bit32_names_spec) "" (2 ^ 32)
       (names bit32_names_spec) = "100000000"%string
  /\ append bit32_names_spec "" (2 ^ 32) = Some "b32"%string
  /\ make_bitmask_enum_spec uint64_t bit33_names wrapclip_none
     = Accepted bit33_names_spec
  /\ Z.of_nat (List.length (names bit33_names_spec))
     = bits_length (base_spec bit33_names_spec)
  /\ make_at (base_spec bit33_names_spec) 33 = None
  /\ append bit33_names_spec "" 1 = None.
Proof.
  repeat match goal with |- _ /\ _ => split end;
    try (vm_compute; reflexivity).
  - vm_compute. discriminate.
  - unfold is_E, in_range. vm_compute. split; discriminate.
Qed.

(** ** The tables built by [make_bitmask_enum_spec] *)

Module BitNamesFacts.

Lemma bit_names_fold_pow2 (l : list string) (vb k : Z) :
  0 <= k ->
  snd (fold_left bit_names_step l (vb, convert uint64_t (2 ^ k)))
  = convert uint64_t (2 ^ (k + Z.of_nat (List.length l))).
Proof.
  revert vb k. induction l as [|name l IH]; intros vb k Hk.
  - cbn [fold_left snd List.length]. now rewrite Z.add_0_r.
  - cbn [fold_left bit_names_step List.length].
    assert (convert uint64_t (convert uint64_t (2 ^ k) * 2)
            = convert uint64_t (2 ^ (k + 1))) as ->.
    { change (convert uint64_t) with (fun x => x mod 2 ^ 64). cbv beta.
      rewrite Z.mul_mod_idemp_l by lia.
      now rewrite Z.pow_add_r by lia. }
    rewrite IH by lia. f_equal. f_equal. lia.
Qed.

Lemma bit_names_fold_keeps (l : list string) (st : Z * Z) (i : Z) :
  Z.testbit (fst st) i = true ->
  Z.testbit (fst (fold_left bit_names_step l st)) i = true.
Proof.
  revert st. induction l as [|name l IH]; intros [vb p] Hi; [exact Hi|].
  cbn [fold_left]. apply IH. cbn in *.
  destruct (has_size name); [|exact Hi].
  now rewrite Z.lor_spec, Hi.
Qed.

Lemma lor_below_pow2 (a b n : Z) :
  0 <= n -> 0 <= a < 2 ^ n -> 0 <= b < 2 ^ n -> 0 <= Z.lor a b < 2 ^ n.
Proof.
  intros Hn Ha Hb.
  assert (Z.lor a b = Z.lor a b mod 2 ^ n) as ->.
  { apply Z.bits_inj'. intros i Hi.
    rewrite Z.testbit_mod_pow2 by lia.
    destruct (Z.ltb_spec i n); [reflexivity|].
    rewrite Z.lor_spec, (testbit_above_small n a), (testbit_above_small n b)
      by lia.
    reflexivity. }
  apply Z.mod_pos_bound. apply Z.pow_pos_nonneg; lia.
Qed.

Lemma bit_names_fold_below (l : list string) (vb k : Z) :
  0 <= k -> 0 <= vb < 2 ^ k ->
  0 <= fst (fold_left bit_names_step l (vb, convert uint64_t (2 ^ k)))
    < 2 ^ (k + Z.of_nat (List.length l)).
Proof.
  revert vb k. induction l as [|name l IH]; intros vb k Hk Hvb.
  - cbn [fold_left fst List.length]. now rewrite Z.add_0_r.
  - cbn [fold_left bit_names_step List.length].
    assert (convert uint64_t (convert uint64_t (2 ^ k) * 2)
            = convert uint64_t (2 ^ (k + 1))) as ->.
    { change (convert uint64_t) with (fun x => x mod 2 ^ 64). cbv beta.
      rewrite Z.mul_mod_idemp_l by lia.
      now rewrite Z.pow_add_r by lia. }
    replace (k + Z.of_nat (S (List.length l)))
      with (k + 1 + Z.of_nat (List.length l)) by lia.
    apply IH; [lia|].
    assert (H2k : 0 < 2 ^ k) by (apply Z.pow_pos_nonneg; lia).
    assert (Hk1 : 2 ^ (k + 1) = 2 * 2 ^ k)
      by (rewrite Z.pow_add_r by lia; lia).
    destruct (has_size name); [|lia].
    apply lor_below_pow2; [lia|lia|].
    change (convert uint64_t) with (fun x => x mod 2 ^ 64). cbv beta.
    pose proof (Z.mod_pos_bound (2 ^ k) (2 ^ 64) ltac:(lia)).
    pose proof (Z.mod_le (2 ^ k) (2 ^ 64) ltac:(lia) ltac:(lia)).
    lia.
Qed.

(** The bit of a non-empty name is a valid bit. *)
Lemma bit_names_fold_named (pre more : list string) (name : string) :
  has_size name = true ->
  (List.length more < 64)%nat ->
  Z.testbit
    (fst (fold_left bit_names_step (rev (pre ++ name :: more)) (0, 1)))
    (Z.of_nat (List.length more)) = true.
Proof.
  intros Hs Hm.
  rewrite rev_app_distr. cbn [rev]. rewrite <- app_assoc. cbn [app].
  rewrite fold_left_app. cbn [fold_left].
  apply bit_names_fold_keeps.
  pose proof (bit_names_fold_pow2 (rev more) 0 0 ltac:(lia)) as Hp.
  change (convert uint64_t (2 ^ 0)) with 1 in Hp.
  destruct (fold_left bit_names_step (rev more) (0, 1)) as [vb p].
  cbn [snd] in Hp. subst p. cbn [bit_names_step fst]. rewrite Hs.
  rewrite Z.lor_spec, length_rev, Z.add_0_l.
  rewrite convert_testbit by (cbn; lia).
  rewrite Z.pow2_bits_true by lia. now rewrite orb_true_r.
Qed.

Lemma fixed_split_first (lit : string) :
  lit <> EmptyString -> starts_with_comma lit = false ->
  exists name more, fixed_split lit = name :: more /\ has_size name = true.
Proof.
  destruct lit as [|c rest]; [congruence|]. intros _ Hc.
  cbn [fixed_split].
  destruct (Ascii.eqb c ",") eqn:Hcomma.
  - apply Ascii.eqb_eq in Hcomma. subst c.
    unfold starts_with_comma in Hc. cbn in Hc. now destruct rest.
  - destruct (fixed_split rest) as [|piece more]; eexists _, _;
      (split; [reflexivity|reflexivity]).
Qed.

End BitNamesFacts.
Import BitNamesFacts.

(** A table built by [make_bitmask_enum_spec] from a non-empty literal of at
    most 64 names is rendered in the per-bit mode, and each of its non-empty
    names lies on a valid bit. *)
Lemma make_bitmask_enum_spec_per_bit (U : int_type) (bit_names : string)
  (clip : wrapclip) (ns : bitmask_enum_names_spec) :
  make_bitmask_enum_spec U bit_names clip = Accepted ns ->
  bit_names <> EmptyString ->
  (List.length (names ns) <= 64)%nat ->
  names ns = fixed_split bit_names
  /\ Z.of_nat (List.length (names ns)) = bits_length (base_spec ns)
  /\ names_on_valid_bits ns.
Proof.
  unfold make_bitmask_enum_spec, calc_valid_bits_from_bit_names.
  destruct (starts_with_comma bit_names) eqn:Hc; [discriminate|].
  intros [= <-] Hne Hlen. cbn [names base_spec] in *.
  split; [reflexivity|].
  set (l := fixed_split bit_names) in *.
  set (V := fst (fold_left bit_names_step (rev l) (0, 1))).
  assert (Hnamed : forall pre name more,
            l = (pre ++ name :: more)%list -> has_size name = true ->
            Z.testbit V (Z.of_nat (List.length more)) = true).
  { intros pre name more Hl Hs. unfold V. rewrite Hl.
    apply bit_names_fold_named; [exact Hs|].
    rewrite Hl, length_app in Hlen. cbn [List.length] in Hlen. lia. }
  split.
  - unfold bits_length, bit_width, valid_bits_v. cbn [validbits]. fold V.
    destruct (fixed_split_first bit_names Hne Hc) as (name & more & Hl & Hs).
    fold l in Hl.
    pose proof (Hnamed [] name more Hl Hs) as Htop.
    pose proof (bit_names_fold_below (rev l) 0 0 ltac:(lia) ltac:(cbn; lia))
      as Hbelow.
    change (convert uint64_t (2 ^ 0)) with 1 in Hbelow. fold V in Hbelow.
    rewrite length_rev, Z.add_0_l in Hbelow.
    rewrite Hl in Hbelow |- *. cbn [List.length] in Hbelow |- *.
    assert (2 ^ Z.of_nat (List.length more) <= V).
    { destruct (Z.lt_ge_cases V (2 ^ Z.of_nat (List.length more)));
        [|assumption].
      rewrite (testbit_above_small (Z.of_nat (List.length more)) V)
        in Htop by lia. discriminate. }
    assert (0 < 2 ^ Z.of_nat (List.length more))
      by (apply Z.pow_pos_nonneg; lia).
    destruct (Z.eqb_spec V 0); [lia|].
    rewrite (Z.log2_unique V (Z.of_nat (List.length more))); [lia|lia|].
    replace (Z.succ (Z.of_nat (List.length more)))
      with (Z.of_nat (S (List.length more))) by lia.
    lia.
  - intros _ pre name more Hl Hs. unfold valid_bits_v. cbn [validbits].
    exact (Hnamed pre name more Hl Hs).
Qed.

(** The claim of the per-bit mode holds for the tables built by
    [make_bitmask_enum_spec] whose bits the shifts of [make_at] reach. *)
Lemma append_made_spec (U : int_type) (bit_names : string)
  (clip : wrapclip) (ns : bitmask_enum_names_spec) (tgt : string) (v : Z) :
  make_bitmask_enum_spec U bit_names clip = Accepted ns ->
  bit_names <> EmptyString ->
  int_shift_reaches (base_spec ns) (Z.of_nat (List.length (names ns))) ->
  is_E (base_spec ns) v ->
  append ns tgt v
  = Some (PerBitWords.render_bits (base_spec ns) tgt v (names ns)).
Proof.
  intros Hmade Hne Hreach Hv.
  destruct (make_bitmask_enum_spec_per_bit U bit_names clip ns Hmade Hne)
    as (_ & Hmode & Hvalid).
  - unfold int_shift_reaches in Hreach. lia.
  - now apply append_per_bit.
Qed.

(** An accepted bit-name table never begins with an empty name, unless the
    literal itself is empty. *)
Lemma accepted_spec_first_name (U : int_type) (bit_names : string)
  (clip : wrapclip) (ns : bitmask_enum_names_spec) :
  make_bitmask_enum_spec U bit_names clip = Accepted ns ->
  bit_names <> EmptyString ->
  exists name more, names ns = name :: more /\ has_size name = true.
Proof.
  unfold make_bitmask_enum_spec, calc_valid_bits_from_bit_names.
  destruct (starts_with_comma bit_names) eqn:Hc; [discriminate|].
  intros [= <-] Hne. cbn [names]. now apply fixed_split_first.
Qed.

(** The split of the test of the fixed strings:
    [fixed_split<"abc,def">()[1]] is ["def"]. *)
Lemma fixed_split_abc_def :
  fixed_split "abc,def" = ["abc"; "def"]%string
  /\ nth_error (fixed_split "abc,def") 1 = Some "def"%string.
Proof. split; reflexivity. Qed.

(** * Further properties of the operator suite *)

Module BitFacts.

Section Ops.

Variable s : bitmask_enum_spec.

Lemma op_or_low (l r i : Z) :
  0 <= i < width (underlying s) ->
  Z.testbit (op_or s l r) i = Z.testbit l i || Z.testbit r i.
Proof. intros Hi. unfold op_or, E_cast, deref. now low_bits. Qed.

Lemma op_and_low (l r i : Z) :
  0 <= i < width (underlying s) ->
  Z.testbit (op_and s l r) i = Z.testbit l i && Z.testbit r i.
Proof. intros Hi. unfold op_and, E_cast, deref. now low_bits. Qed.

Lemma op_xor_low (l r i : Z) :
  0 <= i < width (underlying s) ->
  Z.testbit (op_xor s l r) i = xorb (Z.testbit l i) (Z.testbit r i).
Proof. intros Hi. unfold op_xor, E_cast, deref. now low_bits. Qed.

Lemma max_value_low (i : Z) :
  0 <= i < width (underlying s) ->
  Z.testbit (max_value s) i = Z.testbit (valid_bits_v s) i.
Proof. intros Hi. unfold max_value, do_max_value, E_cast. now low_bits. Qed.

Lemma min_value_zero : min_value s = 0.
Proof. apply (E_cast_zero s). Qed.

Lemma op_or_is_E (l r : Z) : is_E s (op_or s l r).
Proof. apply convert_in_range. Qed.

Lemma op_and_is_E (l r : Z) : is_E s (op_and s l r).
Proof. apply convert_in_range. Qed.

Lemma op_xor_is_E (l r : Z) : is_E s (op_xor s l r).
Proof. apply convert_in_range. Qed.

Lemma op_not_is_E (v : Z) : is_E s (op_not s v).
Proof. unfold op_not. destruct (bit_clip_v s); apply convert_in_range. Qed.

Lemma op_minus_is_E (l r : Z) : is_E s (op_minus s l r).
Proof. apply convert_in_range. Qed.

Lemma zero_is_E : is_E s 0.
Proof. rewrite <- (E_cast_zero s). apply convert_in_range. Qed.

(** Two values of [E] with the same bits are equal. *)
Lemma E_eq_of_low (a b : Z) :
  is_E s a -> is_E s b ->
  (forall i, 0 <= i < width (underlying s) ->
             Z.testbit a i = Z.testbit b i) ->
  a = b.
Proof. apply in_range_bits_inj. Qed.

Lemma only_valid_bits_iff (v : Z) :
  only_valid_bits s v <->
  is_E s v
  /\ forall i, 0 <= i < width (underlying s) ->
               Z.testbit v i = true -> Z.testbit (valid_bits_v s) i = true.
Proof.
  split.
  - intros Hv. split.
    + unfold only_valid_bits in Hv. rewrite <- Hv. apply op_and_is_E.
    + intros i Hi. now apply only_valid_bits_low.
  - intros [HE Hb]. unfold only_valid_bits.
    apply E_eq_of_low; [apply op_and_is_E|exact HE|].
    intros i Hi. rewrite op_and_low, max_value_low by assumption.
    destruct (Z.testbit v i) eqn:Hvi; [|reflexivity].
    now rewrite (Hb i Hi Hvi).
Qed.

(** A value of [E] other than zero has a bit set. *)
Lemma nonzero_has_bit (x : Z) :
  is_E s x -> x <> 0 ->
  exists i, 0 <= i < width (underlying s) /\ Z.testbit x i = true.
Proof.
  intros Hx Hnz. pose proof (width_pos (underlying s)) as Hw.
  unfold is_E, in_range, min_int, max_int in Hx.
  destruct (Z.lt_ge_cases x 0) as [Hneg|Hpos].
  - exists (width (underlying s) - 1). split; [lia|].
    destruct (is_signed (underlying s)); [|lia].
    apply (testbit_above_small_neg (width (underlying s) - 1)); lia.
  - exists (Z.log2 x). split.
    + split; [apply Z.log2_nonneg|].
      apply Z.log2_lt_pow2; [lia|].
      destruct (is_signed (underlying s)); [|lia].
      assert (2 ^ (width (underlying s) - 1) < 2 ^ width (underlying s))
        by (apply Z.pow_lt_mono_r; lia).
      lia.
    + apply Z.bit_log2. lia.
Qed.

End Ops.

End BitFacts.
Import BitFacts.

Ltac by_low_bits s :=
  apply (E_eq_of_low s);
  [ try apply op_or_is_E; try apply op_and_is_E; try apply op_xor_is_E;
    try apply op_not_is_E; try apply op_minus_is_E; try apply zero_is_E;
    try apply max_value_is_E; try assumption
  | try apply op_or_is_E; try apply op_and_is_E; try apply op_xor_is_E;
    try apply op_not_is_E; try apply op_minus_is_E; try apply zero_is_E;
    try apply max_value_is_E; try assumption
  | let i := fresh "i" in
    let Hi := fresh "Hi" in
    intros i Hi;
    repeat first
      [ rewrite op_or_low by assumption
      | rewrite op_and_low by assumption
      | rewrite op_xor_low by assumption
      | rewrite op_not_low_bits by assumption
      | rewrite max_value_low by assumption
      | rewrite Z.bits_0 ] ].

(** The operators, [set], [clear] and [flip] keep a value within the valid
    bits in every clip mode: from operands with only valid bits they give a
    result with only valid bits (for [&] and [-] the left operand alone
    decides). The complement does so in the limit mode. *)
Theorem valid_bits_closed (s : bitmask_enum_spec) (l r : Z) :
  only_valid_bits s l -> only_valid_bits s r ->
  only_valid_bits s (op_or s l r)
  /\ only_valid_bits s (op_xor s l r)
  /\ only_valid_bits s (op_plus s l r)
  /\ only_valid_bits s (set s l r)
  /\ only_valid_bits s (flip s l)
  /\ (forall x, only_valid_bits s (op_and s l x))
  /\ (forall x, only_valid_bits s (op_minus s l x))
  /\ (forall x, only_valid_bits s (clear s l x))
  /\ (bit_clip_v s = true -> only_valid_bits s (op_not s l)).
Proof.
  intros [HlE Hl]%only_valid_bits_iff [HrE Hr]%only_valid_bits_iff.
  assert (Hor : only_valid_bits s (op_or s l r)).
  { apply only_valid_bits_iff. split; [apply op_or_is_E|].
    intros i Hi. rewrite op_or_low by assumption.
    intros [H|H]%orb_true_iff; auto. }
  assert (Hminus : forall x, only_valid_bits s (op_minus s l x)).
  { intros x. apply only_valid_bits_iff. split; [apply op_minus_is_E|].
    intros i Hi. unfold op_minus. rewrite op_and_low by assumption.
    intros [H _]%andb_true_iff. auto. }
  repeat match goal with |- _ /\ _ => split end;
    try exact Hor; try exact Hminus.
  - apply only_valid_bits_iff. split; [apply op_xor_is_E|].
    intros i Hi. rewrite op_xor_low by assumption.
    destruct (Z.testbit l i) eqn:Hli; [intros _; auto|].
    destruct (Z.testbit r i) eqn:Hri; [intros _; auto|discriminate].
  - apply only_valid_bits_iff. split; [apply op_xor_is_E|].
    intros i Hi. unfold flip. rewrite op_xor_low, max_value_low by assumption.
    destruct (Z.testbit l i) eqn:Hli.
    + now rewrite (Hl i Hi Hli).
    + now destruct (Z.testbit (valid_bits_v s) i).
  - intros x. apply only_valid_bits_iff. split; [apply op_and_is_E|].
    intros i Hi. rewrite op_and_low by assumption.
    intros [H _]%andb_true_iff. auto.
  - intros Hclip. apply only_valid_bits_iff. split; [apply op_not_is_E|].
    intros i Hi. rewrite op_not_low_bits, Hclip by assumption.
    destruct (Z.testbit l i) eqn:Hli.
    + now rewrite (Hl i Hi Hli).
    + now destruct (Z.testbit (valid_bits_v s) i).
Qed.

Lemma valid_bits_closed_witness :
  only_valid_bits (rgb_spec wrapclip_none)
    (op_or (rgb_spec wrapclip_none) 5 3).
Proof.
  destruct (valid_bits_closed (rgb_spec wrapclip_none) 5 3) as [H _].
  - reflexivity.
  - reflexivity.
  - exact H.
Defined.

(** The complement is its own inverse in both clip modes. In the default
    mode it negates every bit of the underlying type, so the complement of
    a value with only valid bits has every invalid bit set: it has only
    valid bits exactly when every bit of the type is valid. *)
Theorem op_not_involutive (s : bitmask_enum_spec) (v : Z) :
  is_E s v ->
  op_not s (op_not s v) = v
  /\ (bit_clip_v s = false ->
      forall i, 0 <= i < width (underlying s) ->
                Z.testbit (deref (op_not s v)) i
                = negb (Z.testbit (deref v) i))
  /\ (bit_clip_v s = false -> only_valid_bits s v ->
      (only_valid_bits s (op_not s v) <->
       forall i, 0 <= i < width (underlying s) ->
                 Z.testbit (valid_bits_v s) i = true)).
Proof.
  intros Hv. split; [|split].
  - by_low_bits s.
    destruct (bit_clip_v s), (Z.testbit v i),
      (Z.testbit (valid_bits_v s) i); reflexivity.
  - intros Hclip i Hi. unfold deref.
    now rewrite op_not_low_bits, Hclip.
  - intros Hclip [_ Hvalid]%only_valid_bits_iff. split.
    + intros [_ Hn]%only_valid_bits_iff i Hi.
      destruct (Z.testbit v i) eqn:Hvi; [auto|].
      apply Hn; [assumption|].
      now rewrite op_not_low_bits, Hclip, Hvi.
    + intros Hall. apply only_valid_bits_iff.
      split; [apply op_not_is_E|]. intros i Hi _. now apply Hall.
Qed.

Lemma op_not_involutive_witness :
  op_not (rgb_spec wrapclip_none) (op_not (rgb_spec wrapclip_none) 5) = 5.
Proof.
  destruct (op_not_involutive (rgb_spec wrapclip_none) 5) as [H _].
  - unfold is_E, in_range; cbn; lia.
  - exact H.
Defined.

(** The set operations form the usual algebra on the values of [E]: [|] and
    [&] are commutative, associative and idempotent and absorb each other,
    [&] distributes over [|], the zero value is neutral for [|] and [^] and
    absorbing for [&], and [v ^ v] is the zero value. *)
Theorem set_algebra (s : bitmask_enum_spec) (a b c : Z) :
  is_E s a ->
  op_or s a b = op_or s b a
  /\ op_and s a b = op_and s b a
  /\ op_xor s a b = op_xor s b a
  /\ op_or s (op_or s a b) c = op_or s a (op_or s b c)
  /\ op_and s (op_and s a b) c = op_and s a (op_and s b c)
  /\ op_xor s (op_xor s a b) c = op_xor s a (op_xor s b c)
  /\ op_or s a a = a
  /\ op_and s a a = a
  /\ op_xor s a a = min_value s
  /\ op_and s a (op_or s a b) = a
  /\ op_or s a (op_and s a b) = a
  /\ op_and s a (op_or s b c) = op_or s (op_and s a b) (op_and s a c)
  /\ op_or s a (min_value s) = a
  /\ op_xor s a (min_value s) = a
  /\ op_and s a (min_value s) = min_value s.
Proof.
  intros Ha. rewrite !min_value_zero.
  repeat match goal with |- _ /\ _ => split end;
    by_low_bits s;
    destruct (Z.testbit a i); try destruct (Z.testbit b i);
    try destruct (Z.testbit c i); reflexivity.
Qed.

Lemma set_algebra_witness :
  op_and (rgb_spec wrapclip_none) 5 (op_or (rgb_spec wrapclip_none) 5 2) = 5.
Proof.
  destruct (set_algebra (rgb_spec wrapclip_none) 5 2 0)
    as (_ & _ & _ & _ & _ & _ & _ & _ & _ & H & _).
  - unfold is_E, in_range; cbn; lia.
  - exact H.
Defined.

(** [flip] is the complement within the valid bits: for a value with only
    valid bits, [flip(v)] is [max_value - v], it shares no bit with [v] and
    together with [v] gives [max_value]; [flip] exchanges the zero value
    and [max_value]. *)
Theorem flip_complements (s : bitmask_enum_spec) (v : Z) :
  only_valid_bits s v ->
  flip s v = op_minus s (max_value s) v
  /\ op_or s v (flip s v) = max_value s
  /\ op_and s v (flip s v) = min_value s
  /\ has s v (flip s v) = false
  /\ flip s (min_value s) = max_value s
  /\ flip s (max_value s) = min_value s.
Proof.
  intros [HvE Hv]%only_valid_bits_iff. rewrite !min_value_zero.
  assert (Hand : op_and s v (flip s v) = 0).
  { unfold flip. by_low_bits s.
    destruct (Z.testbit v i) eqn:Hvi; [|reflexivity].
    now rewrite (Hv i Hi Hvi). }
  repeat match goal with |- _ /\ _ => split end.
  - unfold flip, op_minus. by_low_bits s.
    destruct (Z.testbit v i) eqn:Hvi.
    + rewrite (Hv i Hi Hvi). now destruct (bit_clip_v s).
    + now destruct (bit_clip_v s), (Z.testbit (valid_bits_v s) i).
  - unfold flip. by_low_bits s.
    destruct (Z.testbit v i) eqn:Hvi.
    + now rewrite (Hv i Hi Hvi).
    + now destruct (Z.testbit (valid_bits_v s) i).
  - exact Hand.
  - unfold has. rewrite Hand, (E_cast_zero s). reflexivity.
  - unfold flip. by_low_bits s.
    now destruct (Z.testbit (valid_bits_v s) i).
  - unfold flip. by_low_bits s.
    now destruct (Z.testbit (valid_bits_v s) i).
Qed.

Lemma flip_complements_witness :
  op_or (rgb_spec wrapclip_none) 5 (flip (rgb_spec wrapclip_none) 5)
  = max_value (rgb_spec wrapclip_none).
Proof.
  destruct (flip_complements (rgb_spec wrapclip_none) 5) as (_ & H & _).
  - reflexivity.
  - exact H.
Defined.

(** De Morgan's laws for the complement hold in the default clip mode for
    all values, and in the limit mode for values with only valid bits. *)
Theorem op_not_de_morgan (s : bitmask_enum_spec) (l r : Z) :
  bit_clip_v s = false \/ (only_valid_bits s l /\ only_valid_bits s r) ->
  op_not s (op_or s l r) = op_and s (op_not s l) (op_not s r)
  /\ op_not s (op_and s l r) = op_or s (op_not s l) (op_not s r).
Proof.
  intros H.
  assert (Hb : forall i, 0 <= i < width (underlying s) ->
            bit_clip_v s = false
            \/ ((Z.testbit l i = true ->
                 Z.testbit (valid_bits_v s) i = true)
                /\ (Z.testbit r i = true ->
                    Z.testbit (valid_bits_v s) i = true))).
  { intros i Hi. destruct H as [H|[Hl Hr]]; [now left|right].
    apply only_valid_bits_iff in Hl, Hr. destruct Hl as [_ Hl].
    destruct Hr as [_ Hr]. split; auto. }
  split; by_low_bits s;
    (destruct (Hb i Hi) as [->|[Hl Hr]];
     [ now destruct (Z.testbit l i), (Z.testbit r i)
     | destruct (bit_clip_v s);
       destruct (Z.testbit l i) eqn:Hli, (Z.testbit r i) eqn:Hri;
       try rewrite (Hl eq_refl); try rewrite (Hr eq_refl);
       try reflexivity;
       now destruct (Z.testbit (valid_bits_v s) i) ]).
Qed.

Lemma op_not_de_morgan_witness :
  op_not (rgb_spec wrapclip_limit) (op_or (rgb_spec wrapclip_limit) 1 4)
  = op_and (rgb_spec wrapclip_limit) (op_not (rgb_spec wrapclip_limit) 1)
      (op_not (rgb_spec wrapclip_limit) 4).
Proof.
  destruct (op_not_de_morgan (rgb_spec wrapclip_limit) 1 4) as [H _].
  - right. split; reflexivity.
  - exact H.
Defined.

Lemma has_bit_iff (s : bitmask_enum_spec) (a b : Z) :
  has s a b = true <->
  exists i, 0 <= i < width (underlying s)
            /\ Z.testbit a i = true /\ Z.testbit b i = true.
Proof.
  unfold has. rewrite (E_cast_zero s). split.
  - intros H%negb_true_iff%Z.eqb_neq.
    destruct (nonzero_has_bit s _ (op_and_is_E s a b) H) as (i & Hi & Hb).
    rewrite op_and_low in Hb by assumption.
    apply andb_true_iff in Hb. now exists i.
  - intros (i & Hi & Ha & Hb). apply negb_true_iff, Z.eqb_neq.
    intros H0. pose proof (op_and_low s a b i Hi) as Hl.
    rewrite H0, Z.bits_0, Ha, Hb in Hl. discriminate.
Qed.

(** [has(v, m)] holds exactly when [v] and [m] share a set bit; in
    particular no value has any bit of the zero value. *)
Theorem has_shares_bit (s : bitmask_enum_spec) (v m : Z) :
  (has s v m = true <->
   exists i, 0 <= i < width (underlying s)
             /\ Z.testbit (deref v) i = true
             /\ Z.testbit (deref m) i = true)
  /\ has s v (min_value s) = false
  /\ has s v m = has s m v.
Proof.
  unfold deref.
  pose proof (has_bit_iff s) as Hiff.
  split; [apply Hiff|split].
  - destruct (has s v (min_value s)) eqn:H; [|reflexivity].
    apply Hiff in H. destruct H as (i & _ & _ & H).
    rewrite min_value_zero, Z.bits_0 in H. discriminate.
  - unfold has. f_equal. f_equal. by_low_bits s. apply andb_comm.
Qed.

(** [has_all(v, m)] holds exactly when every set bit of [m] is set in
    [v]; it holds for the zero value as [m], and for any other [m] it
    implies [has(v, m)]. *)
Theorem has_all_contains (s : bitmask_enum_spec) (v m : Z) :
  is_E s m ->
  (has_all s v m = true <->
   forall i, 0 <= i < width (underlying s) ->
             Z.testbit (deref m) i = true -> Z.testbit (deref v) i = true)
  /\ has_all s v (min_value s) = true
  /\ (has_all s v m = true -> m <> min_value s -> has s v m = true).
Proof.
  intros Hm. unfold deref.
  assert (Hiff : has_all s v m = true <->
            forall i, 0 <= i < width (underlying s) ->
                      Z.testbit m i = true -> Z.testbit v i = true).
  { unfold has_all. rewrite Z.eqb_eq. split.
    - intros H i Hi Hmi. pose proof (op_and_low s v m i Hi) as Hl.
      rewrite H, Hmi in Hl. symmetry in Hl.
      now apply andb_true_iff in Hl.
    - intros H. by_low_bits s.
      destruct (Z.testbit m i) eqn:Hmi.
      + now rewrite (H i Hi Hmi).
      + apply andb_false_r. }
  split; [exact Hiff|split].
  - unfold has_all. apply Z.eqb_eq. rewrite min_value_zero.
    by_low_bits s. apply andb_false_r.
  - intros Hall Hnz. rewrite min_value_zero in Hnz.
    destruct (nonzero_has_bit s m Hm Hnz) as (i & Hi & Hb).
    apply has_bit_iff. exists i.
    repeat split; try lia; auto.
    now apply (proj1 Hiff Hall).
Qed.

Lemma has_all_contains_witness :
  has_all (rgb_spec wrapclip_none) 7 5 = true.
Proof.
  destruct (has_all_contains (rgb_spec wrapclip_none) 7 5) as [[_ H] _].
  - unfold is_E, in_range; cbn; lia.
  - apply H. intros i Hi.
    assert (i = 0 \/ i = 1 \/ i = 2 \/ 3 <= i) as [->|[->|[->|Hge]]] by lia;
      cbn; try congruence.
    unfold deref. rewrite (testbit_above_small 3 5) by lia. discriminate.
Defined.

Lemma has_false_of_low (s : bitmask_enum_spec) (a b : Z) :
  (forall i, 0 <= i < width (underlying s) ->
             Z.testbit a i && Z.testbit b i = false) ->
  has s a b = false.
Proof.
  intros H. destruct (has s a b) eqn:Hh; [|reflexivity].
  apply has_bit_iff in Hh. destruct Hh as (i & Hi & Ha & Hb).
  specialize (H i Hi). rewrite Ha, Hb in H. discriminate.
Qed.

Lemma has_all_of_low (s : bitmask_enum_spec) (a b : Z) :
  is_E s b ->
  (forall i, 0 <= i < width (underlying s) ->
             Z.testbit a i && Z.testbit b i = Z.testbit b i) ->
  has_all s a b = true.
Proof.
  intros Hb H. unfold has_all. apply Z.eqb_eq. by_low_bits s. now apply H.
Qed.

(** [set(v, m)] has every bit of [m] and every bit of [v] and no other
    bit; setting twice is setting once; [set_if] has all of [m] exactly
    when the predicate holds or [v] had them already. *)
Theorem set_sets_mask (s : bitmask_enum_spec) (v m : Z) (pred : bool) :
  is_E s v -> is_E s m ->
  has_all s (set s v m) m = true
  /\ has_all s (set s v m) v = true
  /\ (forall i, 0 <= i < width (underlying s) ->
        Z.testbit (deref (set s v m)) i
        = Z.testbit (deref v) i || Z.testbit (deref m) i)
  /\ set s (set s v m) m = set s v m
  /\ has_all s (set_if s v m pred) m = pred || has_all s v m.
Proof.
  intros Hv Hm. unfold set, op_plus, deref.
  assert (Hall : has_all s (op_or s v m) m = true).
  { apply has_all_of_low; [assumption|]. intros i Hi.
    rewrite op_or_low by assumption.
    now destruct (Z.testbit v i), (Z.testbit m i). }
  repeat match goal with |- _ /\ _ => split end.
  - exact Hall.
  - apply has_all_of_low; [assumption|]. intros i Hi.
    rewrite op_or_low by assumption.
    now destruct (Z.testbit v i), (Z.testbit m i).
  - intros i Hi. now apply op_or_low.
  - by_low_bits s. now destruct (Z.testbit v i), (Z.testbit m i).
  - unfold set_if, op_plus. destruct pred; [exact Hall|reflexivity].
Qed.

Lemma set_sets_mask_witness :
  has_all (rgb_spec wrapclip_none) (set (rgb_spec wrapclip_none) 1 4) 4
  = true.
Proof.
  destruct (set_sets_mask (rgb_spec wrapclip_none) 1 4 true) as [H _].
  - unfold is_E, in_range; cbn; lia.
  - unfold is_E, in_range; cbn; lia.
  - exact H.
Defined.

(** When the clip mode is not the limit mode, or [m] has only valid bits,
    [clear(v, m)] shares no bit with [m]; clearing only removes bits of
    [v], clearing twice is clearing once, and [clear_if] shares a bit with
    [m] exactly when the predicate fails and [v] did. *)
Theorem clear_clears_mask (s : bitmask_enum_spec) (v m : Z) (pred : bool) :
  bit_clip_v s = false \/ only_valid_bits s m ->
  has s (clear s v m) m = false
  /\ missing_all s (clear s v m) m = true
  /\ has_all s v (clear s v m) = true
  /\ clear s (clear s v m) m = clear s v m
  /\ has s (clear_if s v m pred) m = negb pred && has s v m.
Proof.
  intros Hmode. unfold clear.
  assert (Hn : forall i, 0 <= i < width (underlying s) ->
            Z.testbit (op_not s m) i && Z.testbit m i = false).
  { intros i Hi. rewrite op_not_low_bits by assumption.
    destruct Hmode as [->|Hm]; [now destruct (Z.testbit m i)|].
    destruct (Z.testbit m i) eqn:Hmi.
    - rewrite (only_valid_bits_low s m i Hm Hi Hmi).
      now destruct (bit_clip_v s).
    - apply andb_false_r. }
  assert (Hhas : has s (op_minus s v m) m = false).
  { apply has_false_of_low. intros i Hi. unfold op_minus.
    rewrite op_and_low, <- andb_assoc, Hn by assumption.
    apply andb_false_r. }
  repeat match goal with |- _ /\ _ => split end.
  - exact Hhas.
  - unfold missing_all. now rewrite Hhas.
  - apply has_all_of_low; [apply op_minus_is_E|]. intros i Hi.
    unfold op_minus. rewrite op_and_low by assumption.
    now destruct (Z.testbit v i), (Z.testbit (op_not s m) i).
  - unfold op_minus. by_low_bits s.
    now destruct (Z.testbit v i), (bit_clip_v s), (Z.testbit m i),
      (Z.testbit (valid_bits_v s) i).
  - unfold clear_if. destruct pred; [exact Hhas|reflexivity].
Qed.

Lemma clear_clears_mask_witness :
  has (rgb_spec wrapclip_limit) (clear (rgb_spec wrapclip_limit) 7 5) 5
  = false.
Proof.
  destruct (clear_clears_mask (rgb_spec wrapclip_limit) 7 5 true) as [H _].
  - right. reflexivity.
  - exact H.
Defined.

(** [set_to(v, m, value)] makes [has_all] of a mask [m] other than the
    zero value equal to [value] (in the limit mode: for a mask with only
    valid bits). *)
Theorem set_to_decides_has_all (s : bitmask_enum_spec) (v m : Z)
  (value : bool) :
  is_E s m -> m <> min_value s ->
  bit_clip_v s = false \/ only_valid_bits s m ->
  has_all s (set_to s v m value) m = value.
Proof.
  intros Hm Hnz Hmode. unfold set_to. destruct value.
  - apply has_all_of_low; [assumption|]. intros i Hi.
    unfold op_plus. rewrite op_or_low by assumption.
    now destruct (Z.testbit v i), (Z.testbit m i).
  - destruct (has_all s (op_minus s v m) m) eqn:Hall; [|reflexivity].
    exfalso. rewrite min_value_zero in Hnz.
    destruct (nonzero_has_bit s m Hm Hnz) as (i & Hi & Hb).
    unfold has_all in Hall. apply Z.eqb_eq in Hall.
    pose proof (op_and_low s (op_minus s v m) m i Hi) as Hl.
    rewrite Hall, Hb, andb_true_r in Hl. unfold op_minus in Hl.
    rewrite op_and_low, op_not_low_bits in Hl by assumption.
    destruct Hmode as [Hc|Hvalid].
    + rewrite Hc, Hb in Hl. now rewrite andb_false_r in Hl.
    + rewrite Hb, (only_valid_bits_low s m i Hvalid Hi Hb) in Hl.
      destruct (bit_clip_v s); cbn in Hl;
        now rewrite andb_false_r in Hl.
Qed.

Lemma set_to_decides_has_all_witness :
  has_all (rgb_spec wrapclip_none)
    (set_to (rgb_spec wrapclip_none) 7 2 false) 2 = false.
Proof.
  apply (set_to_decides_has_all (rgb_spec wrapclip_none) 7 2 false).
  - unfold is_E, in_range; cbn; lia.
  - vm_compute. discriminate.
  - left. reflexivity.
Defined.

(** [make] is the identity on the integers of the underlying type in the
    default clip mode, and in the limit mode on those with only valid
    bits; in the limit mode every value it makes has only valid bits; and
    making from a made value changes nothing. *)
Theorem make_round_trip (s : bitmask_enum_spec) (u : Z) :
  (is_E s u -> bit_clip_v s = false \/ only_valid_bits s u ->
   deref (make s u) = u)
  /\ (bit_clip_v s = true -> only_valid_bits s (make s u))
  /\ make s (deref (make s u)) = make s u.
Proof.
  unfold deref. split; [|split].
  - intros Hu Hmode. apply (E_eq_of_low s); [apply make_is_E|assumption|].
    intros i Hi. rewrite make_low_bits by assumption.
    destruct Hmode as [->|Hvalid]; [reflexivity|].
    destruct (bit_clip_v s); [|reflexivity].
    destruct (Z.testbit u i) eqn:Hui; [|reflexivity].
    now rewrite (only_valid_bits_low s u i Hvalid Hi Hui).
  - intros Hclip. apply only_valid_bits_iff. split; [apply make_is_E|].
    intros i Hi. rewrite make_low_bits, Hclip by assumption.
    now intros [_ ?]%andb_true_iff.
  - apply (E_eq_of_low s); try apply make_is_E.
    intros i Hi. rewrite !make_low_bits by assumption.
    now destruct (bit_clip_v s), (Z.testbit u i),
      (Z.testbit (valid_bits_v s) i).
Qed.

Lemma make_round_trip_witness :
  deref (make (rgb_spec wrapclip_limit) 5) = 5.
Proof.
  destruct (make_round_trip (rgb_spec wrapclip_limit) 5) as [H _].
  apply H.
  - unfold is_E, in_range; cbn; lia.
  - right. reflexivity.
Defined.

(** ** The index-addressed functions *)

Lemma make_at_undefined_iff (s : bitmask_enum_spec) (ndx : Z) :
  0 <= ndx < 2 ^ 64 ->
  (make_at s ndx = None <-> ndx = 0 \/ 33 <= ndx).
Proof.
  intros Hn. unfold make_at, shl.
  change (convert size_t) with (fun x => x mod 2 ^ 64). cbv beta.
  change (width int_t) with 32.
  destruct (Z.eq_dec ndx 0) as [->|Hnz].
  - cbn. intuition congruence.
  - rewrite Z.mod_small by lia.
    destruct (Z.leb_spec 0 (ndx - 1)); [|lia].
    destruct (Z.ltb_spec (ndx - 1) 32); cbn [andb].
    + split; [discriminate|lia].
    + split; [lia|reflexivity].
Qed.

(** The index-addressed functions have a defined result exactly for the
    indices 1 to 32: index 0 and the indices from 33 on shift the [int]
    out of its width. With a false predicate [set_at_if] and [clear_at_if]
    do not evaluate the shift and return the value for every index. *)
Theorem at_index_defined (s : bitmask_enum_spec) (v ndx : Z) :
  0 <= ndx < 2 ^ 64 ->
  (make_at s ndx = None <-> ndx = 0 \/ 33 <= ndx)
  /\ (set_at s v ndx = None <-> ndx = 0 \/ 33 <= ndx)
  /\ (clear_at s v ndx = None <-> ndx = 0 \/ 33 <= ndx)
  /\ (forall value, set_at_to s v ndx value = None
                    <-> ndx = 0 \/ 33 <= ndx)
  /\ (set_at_if s v ndx true = None <-> ndx = 0 \/ 33 <= ndx)
  /\ set_at_if s v ndx false = Some v
  /\ clear_at_if s v ndx false = Some v.
Proof.
  intros Hn. pose proof (make_at_undefined_iff s ndx Hn) as H.
  unfold set_at_to, set_at, clear_at, set_at_if, clear_at_if.
  repeat match goal with |- _ /\ _ => split end;
    try reflexivity; try exact (proj1 H); try exact (proj2 H);
    try (intros value; destruct value; split);
    destruct (make_at s ndx); intuition congruence.
Qed.

Lemma at_index_defined_witness :
  set_at (rgb_spec wrapclip_none) 1 0 = None
  /\ set_at_if (rgb_spec wrapclip_none) 1 0 false = Some 1.
Proof.
  destruct (at_index_defined (rgb_spec wrapclip_none) 1 0)
    as (_ & H & _ & _ & _ & Hf & _).
  - lia.
  - split; [apply H; left; reflexivity|exact Hf].
Defined.

(** For an index within the underlying type that the shift reaches, and
    whose bit is valid if the clip mode is the limit mode,
    [set_at_to(v, ndx, value)] gives the bit at [ndx] the given value and
    leaves every other bit as it is (in the limit mode: every other valid
    bit; the invalid bits of [v] are dropped when clearing). *)
Theorem set_at_to_sets_bit (s : bitmask_enum_spec) (v ndx : Z)
  (value : bool) :
  1 <= ndx <= width (underlying s) ->
  int_shift_reaches s ndx ->
  bit_clip_v s = false \/ Z.testbit (valid_bits_v s) (ndx - 1) = true ->
  exists v',
    set_at_to s v ndx value = Some v'
    /\ is_E s v'
    /\ Z.testbit (deref v') (ndx - 1) = value
    /\ (forall i, 0 <= i < width (underlying s) -> i <> ndx - 1 ->
          bit_clip_v s = false \/ Z.testbit (valid_bits_v s) i = true ->
          Z.testbit (deref v') i = Z.testbit (deref v) i)
    /\ (value = true -> set_at s v ndx = Some v'
                        /\ set_at_if s v ndx true = Some v')
    /\ (value = false -> clear_at s v ndx = Some v'
                         /\ clear_at_if s v ndx true = Some v').
Proof.
  intros Hndx Hreach Hvalid. unfold deref.
  unfold set_at_to, set_at, clear_at, set_at_if, clear_at_if.
  rewrite make_at_small_index by (try lia; assumption).
  set (mask := make s (convert (underlying s) (2 ^ (ndx - 1)))).
  assert (Hmask : forall i, 0 <= i < width (underlying s) ->
            Z.testbit mask i
            = (ndx - 1 =? i)
              && (if bit_clip_v s
                  then Z.testbit (valid_bits_v s) i else true))
    by (intros i Hi; apply PerBitFacts.bit_mask_low; lia).
  destruct value.
  - exists (op_plus s v mask). unfold op_plus.
    split; [reflexivity|]. split; [apply op_or_is_E|].
    repeat split; try discriminate.
    + rewrite op_or_low, Hmask, Z.eqb_refl by lia.
      destruct Hvalid as [-> | ->]; [|destruct (bit_clip_v s)];
        apply orb_true_r.
    + intros i Hi Hne _. rewrite op_or_low, Hmask by lia.
      destruct (Z.eqb_spec (ndx - 1) i); [lia|apply orb_false_r].
  - exists (op_minus s v mask). unfold op_minus.
    split; [reflexivity|]. split; [apply op_and_is_E|].
    repeat split; try discriminate.
    + rewrite op_and_low, op_not_low_bits, Hmask, Z.eqb_refl by lia.
      destruct Hvalid as [-> | ->]; [|destruct (bit_clip_v s)];
        apply andb_false_r.
    + intros i Hi Hne Hvi.
      rewrite op_and_low, op_not_low_bits, Hmask by lia.
      destruct (Z.eqb_spec (ndx - 1) i); [lia|]. cbn [andb].
      destruct Hvi as [-> | ->]; [|destruct (bit_clip_v s)];
        apply andb_true_r.
Qed.

Lemma set_at_to_sets_bit_witness :
  exists v', set_at_to (rgb_spec wrapclip_limit) 5 2 true = Some v'
             /\ Z.testbit (deref v') (2 - 1) = true.
Proof.
  destruct (set_at_to_sets_bit (rgb_spec wrapclip_limit) 5 2 true)
    as (v' & H1 & _ & H2 & _).
  - cbn. lia.
  - left. lia.
  - right. reflexivity.
  - exists v'. split; assumption.
Defined.

(** * Further properties of the name tables *)

Module NameTableFacts.

(** The valid bits [calc_valid_bits_from_bit_names] accumulates: those it
    started from and the bits, from [k] on and below 64, of the non-empty
    names. *)
Lemma bit_names_fold_bits (l : list string) (vb k i : Z) :
  0 <= k -> 0 <= i ->
  Z.testbit (fst (fold_left bit_names_step l (vb, convert uint64_t (2 ^ k))))
    i
  = Z.testbit vb i
    || ((k <=? i) && (i <? k + Z.of_nat (List.length l)) && (i <? 64)
        && has_size (nth (Z.to_nat (i - k)) l EmptyString)).
Proof.
  revert vb k. induction l as [|name l IH]; intros vb k Hk Hi.
  - cbn [fold_left fst List.length]. rewrite Z.add_0_r.
    destruct (Z.leb_spec k i), (Z.ltb_spec i k); try lia;
      cbn; now rewrite orb_false_r.
  - cbn [fold_left bit_names_step].
    assert (convert uint64_t (convert uint64_t (2 ^ k) * 2)
            = convert uint64_t (2 ^ (k + 1))) as ->.
    { change (convert uint64_t) with (fun x => x mod 2 ^ 64). cbv beta.
      rewrite Z.mul_mod_idemp_l by lia.
      now rewrite Z.pow_add_r by lia. }
    rewrite IH by lia. cbn [List.length].
    assert (Hpow : Z.testbit (convert uint64_t (2 ^ k)) i
                   = (i <? 64) && (k =? i)).
    { change (convert uint64_t) with (fun x => x mod 2 ^ 64). cbv beta.
      rewrite Z.testbit_mod_pow2, Z.pow2_bits_eqb by lia. reflexivity. }
    destruct (Z.eq_dec i k) as [->|Hne].
    + replace (k - k) with 0 by lia. cbn [Z.to_nat nth].
      rewrite Z.leb_refl.
      destruct (Z.leb_spec (k + 1) k); [lia|].
      destruct (Z.ltb_spec k (k + Z.of_nat (S (List.length l)))); [|lia].
      cbn [andb]. rewrite orb_false_r.
      destruct (has_size name).
      * rewrite Z.lor_spec, Hpow, Z.eqb_refl. now rewrite andb_true_r.
      * now rewrite andb_false_r, orb_false_r.
    + assert (Hvb : Z.testbit
                      (if has_size name
                       then Z.lor vb (convert uint64_t (2 ^ k)) else vb) i
                    = Z.testbit vb i).
      { destruct (has_size name); [|reflexivity].
        rewrite Z.lor_spec, Hpow.
        destruct (Z.eqb_spec k i); [lia|].
        now rewrite andb_false_r, orb_false_r. }
      rewrite Hvb. f_equal.
      destruct (Z.leb_spec (k + 1) i), (Z.leb_spec k i); try lia;
        cbn [andb]; try reflexivity.
      replace (Z.to_nat (i - k)) with (S (Z.to_nat (i - (k + 1))))
        by lia.
      cbn [nth].
      replace (k + Z.of_nat (S (List.length l)))
        with (k + 1 + Z.of_nat (List.length l)) by lia.
      reflexivity.
Qed.

Lemma nth_rev_middle (pre more : list string) (name : string) :
  nth (List.length more) (rev (pre ++ name :: more)) EmptyString = name.
Proof.
  rewrite rev_app_distr. cbn [rev]. rewrite <- app_assoc. cbn [app].
  rewrite app_nth2 by (rewrite length_rev; lia).
  now rewrite length_rev, Nat.sub_diag.
Qed.

End NameTableFacts.
Import NameTableFacts.

(** The valid bits of a table built by [make_bitmask_enum_spec] from a
    non-empty literal of at most 64 names are exactly the bits of the
    non-empty names, the last name naming bit 0: the table qualifies as a
    bitmask enum, is rendered in the per-bit mode, and its valid bits lie
    below [2 ^ N]. *)
Theorem bit_names_give_valid_bits (U : int_type) (bit_names : string)
  (clip : wrapclip) (ns : bitmask_enum_names_spec) :
  make_bitmask_enum_spec U bit_names clip = Accepted ns ->
  bit_names <> EmptyString ->
  (List.length (names ns) <= 64)%nat ->
  (forall pre name more,
     names ns = (pre ++ name :: more)%list ->
     Z.testbit (valid_bits_v (base_spec ns)) (Z.of_nat (List.length more))
     = has_size name)
  /\ 0 <= valid_bits_v (base_spec ns)
          < 2 ^ Z.of_nat (List.length (names ns))
  /\ BitmaskEnum (base_spec ns)
  /\ Z.of_nat (List.length (names ns)) = bits_length (base_spec ns).
Proof.
  intros Hmade Hne Hlen.
  destruct (make_bitmask_enum_spec_per_bit U bit_names clip ns Hmade Hne Hlen)
    as (Hsplit & Hmode & _).
  revert Hmade. unfold make_bitmask_enum_spec, calc_valid_bits_from_bit_names.
  destruct (starts_with_comma bit_names) eqn:Hc; [discriminate|].
  intros [= <-]. cbn [names base_spec] in *.
  unfold valid_bits_v. cbn [validbits].
  set (l := fixed_split bit_names) in *.
  assert (Hbits : forall pre name more,
            l = (pre ++ name :: more)%list ->
            Z.testbit (fst (fold_left bit_names_step (rev l) (0, 1)))
              (Z.of_nat (List.length more)) = has_size name).
  { intros pre name more Hl.
    pose proof (bit_names_fold_bits (rev l) 0 0
                  (Z.of_nat (List.length more)) ltac:(lia) ltac:(lia)) as H.
    change (convert uint64_t (2 ^ 0)) with 1 in H. rewrite H.
    rewrite Z.bits_0, Z.sub_0_r, Nat2Z.id, length_rev. cbn [orb].
    rewrite Hl at 2. rewrite nth_rev_middle.
    assert (Hm : (List.length more < List.length l)%nat).
    { rewrite Hl, length_app. cbn [List.length]. lia. }
    destruct (Z.leb_spec 0 (Z.of_nat (List.length more))); [|lia].
    destruct (Z.ltb_spec (Z.of_nat (List.length more))
                (0 + Z.of_nat (List.length l))); [|lia].
    destruct (Z.ltb_spec (Z.of_nat (List.length more)) 64); [|lia].
    reflexivity. }
  pose proof (bit_names_fold_below (rev l) 0 0 ltac:(lia) ltac:(cbn; lia))
    as Hbelow.
  change (convert uint64_t (2 ^ 0)) with 1 in Hbelow.
  rewrite length_rev, Z.add_0_l in Hbelow.
  split; [exact Hbits|]. split; [exact Hbelow|]. split; [|exact Hmode].
  unfold BitmaskEnum, valid_bits_v. cbn [validbits].
  destruct (fixed_split_first bit_names Hne Hc) as (name & more & Hl & Hs).
  fold l in Hl. intros H0.
  pose proof (Hbits [] name more Hl) as Hb.
  rewrite H0, Z.bits_0, Hs in Hb. discriminate.
Qed.

Lemma bit_names_give_valid_bits_witness :
  BitmaskEnum (base_spec rgb_names_spec)
  /\ Z.of_nat (List.length (names rgb_names_spec))
     = bits_length (base_spec rgb_names_spec).
Proof.
  destruct (bit_names_give_valid_bits int_t "red,green,blue" wrapclip_none
              rgb_names_spec) as (_ & _ & H1 & H2).
  - reflexivity.
  - discriminate.
  - cbn. lia.
  - split; assumption.
Defined.

Module ValueNamesFacts.

Lemma land_le_l (a x : Z) : 0 <= a -> 0 <= Z.land a x <= a.
Proof.
  intros Ha. split; [apply Z.land_nonneg; auto|].
  assert (0 <= a - Z.land a x); [|lia].
  rewrite (Z.sub_nocarry_ldiff a (Z.land a x)).
  - apply Z.ldiff_nonneg. lia.
  - apply Z.bits_inj'. intros k Hk.
    rewrite Z.ldiff_spec, !Z.land_spec, Z.bits_0.
    destruct (Z.testbit a k), (Z.testbit x k); reflexivity.
Qed.

Lemma value_names_keeps (rest : list string) (i vb b : Z) :
  Z.testbit vb b = true ->
  Z.testbit (value_names_loop i rest vb) b = true.
Proof.
  revert i vb. induction rest as [|name rest IH]; intros i vb Hb;
    [exact Hb|].
  cbn [value_names_loop]. apply IH.
  destruct (has_size name); [|exact Hb].
  now rewrite Z.lor_spec, Hb.
Qed.

Lemma value_names_named (p more : list string) (name : string)
  (i vb b : Z) :
  has_size name = true ->
  Z.testbit (i + Z.of_nat (List.length p)) b = true ->
  Z.testbit (value_names_loop i (p ++ name :: more) vb) b = true.
Proof.
  intros Hs. revert i vb. induction p as [|q p IH]; intros i vb Hb.
  - cbn [app value_names_loop]. rewrite Hs. apply value_names_keeps.
    cbn [List.length] in Hb. rewrite Z.add_0_r in Hb.
    now rewrite Z.lor_spec, Hb, orb_true_r.
  - cbn [app value_names_loop]. apply IH.
    cbn [List.length] in Hb.
    now replace (i + 1 + Z.of_nat (List.length p))
      with (i + Z.of_nat (S (List.length p))) by lia.
Qed.

Lemma value_names_below (rest : list string) (i vb k : Z) :
  0 <= i -> 0 <= k -> 0 <= vb < 2 ^ k ->
  i + Z.of_nat (List.length rest) <= 2 ^ k ->
  0 <= value_names_loop i rest vb < 2 ^ k.
Proof.
  revert i vb. induction rest as [|name rest IH]; intros i vb Hi Hk Hvb Hn;
    [exact Hvb|].
  cbn [value_names_loop]. cbn [List.length] in Hn.
  apply IH; try lia.
  destruct (has_size name); [|exact Hvb].
  apply lor_below_pow2; lia.
Qed.

Lemma names_at_in_bounds (names : list string) (i : Z) :
  0 <= i < Z.of_nat (List.length names) ->
  exists name, names_at names i = Some name.
Proof.
  intros Hi. unfold names_at.
  destruct (Z.leb_spec 0 i); [|lia].
  destruct (Z.ltb_spec i (Z.of_nat (List.length names))); [|lia].
  cbn [andb].
  destruct (nth_error names (Z.to_nat i)) eqn:Hn; [now eexists|].
  apply nth_error_None in Hn. lia.
Qed.

Lemma names_at_out_of_bounds (names : list string) (i : Z) :
  Z.of_nat (List.length names) <= i -> names_at names i = None.
Proof.
  intros Hi. unfold names_at.
  destruct (Z.ltb_spec i (Z.of_nat (List.length names))); [lia|].
  now rewrite andb_false_r.
Qed.

Section Search.

Variable s : bitmask_enum_spec.

Lemma valid_part_bounds (v : Z) :
  0 <= valid_part_of s v <= all_valid_bits s
  /\ valid_part_of s v < 2 ^ 64.
Proof.
  unfold valid_part_of, all_valid_bits.
  change (convert size_t) with (fun x => x mod 2 ^ 64). cbv beta.
  pose proof (Z.mod_pos_bound (deref v) (2 ^ 64) ltac:(lia)).
  pose proof (Z.mod_pos_bound (valid_bits_v s) (2 ^ 64) ltac:(lia)).
  rewrite Z.land_comm.
  pose proof (land_le_l (valid_bits_v s mod 2 ^ 64) (deref v mod 2 ^ 64)
                ltac:(lia)).
  lia.
Qed.

Lemma do_value_append_loop_defined (names : list string) (k : nat)
  (st : render) :
  Z.of_nat k <= Z.of_nat (List.length names) ->
  exists st', do_value_append_loop s names k st = Some st'.
Proof.
  revert st. induction k as [|k IH]; intros st Hk; [now eexists|].
  cbn [do_value_append_loop].
  destruct (names_at_in_bounds names (Z.of_nat k) ltac:(lia)) as [name ->].
  destruct (has_all s (working st) (E_cast s (Z.of_nat k)));
    [|apply IH; lia].
  destruct (has_size name); [|apply IH; lia].
  match goal with |- context [if ?c then _ else _] => destruct c end;
    [now eexists|apply IH; lia].
Qed.

(** [do_value_append] has a defined result exactly when its direct lookup
    is within the table. *)
Lemma do_value_append_none_iff (tgt : string) (v : Z)
  (names : list string) :
  do_value_append s tgt v names = None
  <-> Z.of_nat (List.length names) <= valid_part_of s v.
Proof.
  pose proof (valid_part_bounds v) as [[Hlo _] Hhi].
  unfold do_value_append. split.
  - intros Hnone.
    destruct (Z.le_gt_cases (Z.of_nat (List.length names))
                (valid_part_of s v)) as [|Hlt]; [assumption|exfalso].
    destruct (names_at_in_bounds names (valid_part_of s v) ltac:(lia))
      as [name Hname].
    rewrite Hname in Hnone.
    match type of Hnone with
    | context [if first ?st1 then _ else _] =>
        destruct (first st1);
        [ destruct (do_value_append_loop_defined names
                      (Z.to_nat (convert int64_t (valid_part_of s v) + 1))
                      st1) as [st' Hst'];
          [|rewrite Hst' in Hnone; discriminate]
        | discriminate ]
    end.
    assert (convert int64_t (valid_part_of s v) <= valid_part_of s v).
    { unfold convert. cbn.
      pose proof (Z.mod_le (valid_part_of s v + 9223372036854775808)
                    18446744073709551616 ltac:(lia) ltac:(lia)).
      lia. }
    lia.
  - intros Hge. now rewrite names_at_out_of_bounds.
Qed.

End Search.

End ValueNamesFacts.
Import ValueNamesFacts.

Lemma values_spec_not_per_bit (U : int_type) (bit_names : string)
  (clip : wrapclip) :
  BitmaskEnum (base_spec (make_bitmask_enum_values_spec U bit_names clip)) ->
  bits_length (base_spec (make_bitmask_enum_values_spec U bit_names clip))
  < Z.of_nat
      (List.length (names (make_bitmask_enum_values_spec U bit_names clip))).
Proof.
  unfold BitmaskEnum, bits_length, bit_width, valid_bits_v.
  cbn [make_bitmask_enum_values_spec base_spec names validbits].
  unfold calc_valid_bits_from_value_names.
  set (l := fixed_split bit_names).
  intros Hnz.
  destruct l as [|name0 rest] eqn:Hl; [cbn in Hnz; congruence|].
  cbn [tl List.length] in *.
  destruct rest as [|name1 rest']; [cbn in Hnz; congruence|].
  set (n := Z.of_nat (List.length (name1 :: rest'))).
  assert (Hn : 1 <= n) by (unfold n; cbn [List.length]; lia).
  set (V := value_names_loop 1 (name1 :: rest') 0) in *.
  assert (HV : 0 <= V < 2 ^ (Z.log2 n + 1)).
  { apply value_names_below; try lia.
    - pose proof (Z.log2_nonneg n). lia.
    - assert (0 < 2 ^ (Z.log2 n + 1)); [|lia].
      apply Z.pow_pos_nonneg; pose proof (Z.log2_nonneg n); lia.
    - fold n. pose proof (Z.log2_spec n ltac:(lia)) as Hs.
      replace (Z.succ (Z.log2 n)) with (Z.log2 n + 1) in Hs by lia. lia. }
  destruct (Z.eqb_spec V 0); [contradiction|].
  assert (Z.log2 V < Z.log2 n + 1)
    by (apply Z.log2_lt_pow2; lia).
  pose proof (Z.log2_lt_lin n ltac:(lia)).
  replace (Z.of_nat (S (List.length (name1 :: rest')))) with (n + 1)
    by (unfold n; lia).
  lia.
Qed.

(** The valid bits [calc_valid_bits_from_value_names] derives hold every
    named index from 1 on (index 0 is not looked at), lie below every power
    of two that bounds the length of the table, and a table that qualifies
    as a bitmask enum is never rendered in the per-bit mode. *)
Theorem value_names_give_valid_bits (U : int_type) (bit_names : string)
  (clip : wrapclip) :
  let ns := make_bitmask_enum_values_spec U bit_names clip in
  (forall pre name more,
     names ns = (pre ++ name :: more)%list -> pre <> [] ->
     has_size name = true ->
     Z.land (Z.of_nat (List.length pre)) (valid_bits_v (base_spec ns))
     = Z.of_nat (List.length pre))
  /\ (forall k, 0 <= k -> Z.of_nat (List.length (names ns)) <= 2 ^ k ->
        0 <= valid_bits_v (base_spec ns) < 2 ^ k)
  /\ (BitmaskEnum (base_spec ns) ->
      Z.of_nat (List.length (names ns)) <> bits_length (base_spec ns))
  /\ ((forall name, In name (tl (names ns)) -> has_size name = false) ->
      ~ BitmaskEnum (base_spec ns)).
Proof.
  intros ns. repeat match goal with |- _ /\ _ => split end.
  - intros pre name more Hnames Hpre Hs.
    unfold valid_bits_v. cbn [ns make_bitmask_enum_values_spec base_spec
                              names validbits] in *.
    unfold calc_valid_bits_from_value_names. rewrite Hnames.
    destruct pre as [|q pre]; [congruence|]. cbn [app tl List.length].
    apply Z.bits_inj'. intros b Hb. rewrite Z.land_spec.
    destruct (Z.testbit (Z.of_nat (S (List.length pre))) b) eqn:Hbit;
      [|reflexivity].
    cbn [andb]. apply value_names_named; [exact Hs|].
    now replace (1 + Z.of_nat (List.length pre))
      with (Z.of_nat (S (List.length pre))) by lia.
  - intros k Hk Hlen.
    unfold valid_bits_v. cbn [ns make_bitmask_enum_values_spec base_spec
                              names validbits] in *.
    unfold calc_valid_bits_from_value_names.
    assert (0 < 2 ^ k) by (apply Z.pow_pos_nonneg; lia).
    destruct (fixed_split bit_names) as [|name0 rest]; [cbn; lia|].
    cbn [tl List.length] in *.
    apply value_names_below; lia.
  - intros HB. pose proof (values_spec_not_per_bit U bit_names clip HB).
    fold ns in H. lia.
  - intros Hall HB. apply HB.
    unfold valid_bits_v. cbn [ns make_bitmask_enum_values_spec base_spec
                              names validbits] in *.
    unfold calc_valid_bits_from_value_names.
    revert Hall. generalize (tl (fixed_split bit_names)), 1.
    intros rest. induction rest as [|name rest IH]; intros i Hall;
      [reflexivity|].
    cbn [value_names_loop]. rewrite (Hall name) by now left.
    apply IH. intros name' Hin. apply Hall. now right.
Qed.

Lemma value_names_give_valid_bits_witness :
  Z.land 3 (valid_bits_v (base_spec greek_values_spec)) = 3.
Proof.
  destruct (value_names_give_valid_bits int_t ",alpha,beta,gamma"
              wrapclip_none) as [H _].
  apply (H [""; "alpha"; "beta"]%string "gamma"%string []).
  - reflexivity.
  - discriminate.
  - reflexivity.
Defined.

(** In the per-combination mode the rendering has a defined result exactly
    when the valid part of the value is an index of the table; it has one
    for every value when the valid bits are below the length of the
    table. *)
Theorem per_combination_defined_iff (ns : bitmask_enum_names_spec)
  (tgt : string) (v : Z) :
  Z.of_nat (List.length (names ns)) <> bits_length (base_spec ns) ->
  names ns <> [] ->
  (append ns tgt v = None
   <-> Z.of_nat (List.length (names ns))
       <= valid_part_of (base_spec ns) v)
  /\ (all_valid_bits (base_spec ns) < Z.of_nat (List.length (names ns)) ->
      exists out, append ns tgt v = Some out).
Proof.
  intros Hmode Hne.
  assert (Happ : append ns tgt v
                 = do_value_append (base_spec ns) tgt v (names ns)).
  { unfold append.
    destruct (Z.eqb_spec (Z.of_nat (List.length (names ns)))
                (bits_length (base_spec ns))); [contradiction|].
    destruct (names ns); [congruence|]. reflexivity. }
  rewrite Happ. split; [apply do_value_append_none_iff|].
  intros Hlt.
  destruct (do_value_append (base_spec ns) tgt v (names ns)) eqn:Hd;
    [now eexists|].
  apply do_value_append_none_iff in Hd.
  pose proof (valid_part_bounds (base_spec ns) v). lia.
Qed.

Lemma per_combination_defined_iff_witness :
  exists out, append greek_values_spec "" 5 = Some out.
Proof.
  destruct (per_combination_defined_iff greek_values_spec "" 5) as [_ H].
  - vm_compute. discriminate.
  - discriminate.
  - apply H. vm_compute. reflexivity.
Defined.

(** A table of value names whose length is a power of two renders every
    value: no lookup leaves the table. *)
Theorem values_spec_power_of_two (U : int_type) (bit_names : string)
  (clip : wrapclip) (k : Z) (tgt : string) (v : Z) :
  let ns := make_bitmask_enum_values_spec U bit_names clip in
  BitmaskEnum (base_spec ns) ->
  0 <= k -> Z.of_nat (List.length (names ns)) = 2 ^ k ->
  exists out, append ns tgt v = Some out.
Proof.
  intros ns HB Hk Hlen.
  pose proof (values_spec_not_per_bit U bit_names clip HB) as Hmode.
  fold ns in Hmode.
  assert (HV : 0 <= valid_bits_v (base_spec ns) < 2 ^ k).
  { unfold valid_bits_v.
    cbn [ns make_bitmask_enum_values_spec base_spec names validbits] in *.
    unfold calc_valid_bits_from_value_names.
    assert (0 < 2 ^ k) by (apply Z.pow_pos_nonneg; lia).
    destruct (fixed_split bit_names) as [|name0 rest]; [cbn; lia|].
    cbn [tl List.length] in *.
    apply value_names_below; lia. }
  assert (Happ : append ns tgt v
                 = do_value_append (base_spec ns) tgt v (names ns)).
  { unfold append.
    destruct (Z.eqb_spec (Z.of_nat (List.length (names ns)))
                (bits_length (base_spec ns))); [lia|].
    assert (0 < 2 ^ k) by (apply Z.pow_pos_nonneg; lia).
    destruct (names ns); [cbn [List.length] in Hlen; lia|]. reflexivity. }
  rewrite Happ.
  destruct (do_value_append (base_spec ns) tgt v (names ns)) eqn:Hd;
    [now eexists|].
  apply do_value_append_none_iff in Hd.
  pose proof (valid_part_bounds (base_spec ns) v) as [[_ Hle] _].
  assert (all_valid_bits (base_spec ns) < 2 ^ k); [|lia].
  unfold all_valid_bits.
  change (convert size_t) with (fun x => x mod 2 ^ 64). cbv beta.
  pose proof (Z.mod_le (valid_bits_v (base_spec ns)) (2 ^ 64)
                ltac:(lia) ltac:(lia)).
  lia.
Qed.

Lemma values_spec_power_of_two_witness :
  exists out,
    append (make_bitmask_enum_values_spec int_t ",alpha,beta,gamma"
              wrapclip_none) "" 7 = Some out.
Proof.
  apply (values_spec_power_of_two int_t ",alpha,beta,gamma" wrapclip_none 2).
  - vm_compute. discriminate.
  - lia.
  - reflexivity.
Defined.

(** * Further properties of the renderer *)

Lemma do_bit_append_loop_zero (s : bitmask_enum_spec) (N : nat)
  (names : list string) (ndx : nat) (tgt : string) :
  int_shift_reaches s (Z.of_nat ndx) ->
  do_bit_append_loop s N names ndx (Render tgt true 0)
  = Some (Render tgt true 0).
Proof.
  induction ndx as [|ndx IH]; intros Hreach; [reflexivity|].
  cbn [do_bit_append_loop]. unfold do_bit_append_step.
  rewrite make_at_small_index by (try lia; assumption).
  cbn [working].
  rewrite (has_false_of_low s 0) by (intros i Hi; now rewrite Z.bits_0).
  apply IH. unfold int_shift_reaches in *. lia.
Qed.

(** The zero value. In the per-combination mode it renders as the name of
    index 0, or as ["0"] when that name is empty; without names, and in the
    per-bit mode on a table the shifts reach, it renders as ["0"]. *)
Theorem zero_value_rendering (ns : bitmask_enum_names_spec)
  (tgt : string) :
  (Z.of_nat (List.length (names ns)) <> bits_length (base_spec ns) ->
   forall name0 more,
     names ns = name0 :: more ->
     append ns tgt 0
     = Some (if has_size name0
             then String.append tgt name0
             else String.append tgt "0"))
  /\ (names ns = [] -> append ns tgt 0 = Some (String.append tgt "0"))
  /\ (Z.of_nat (List.length (names ns)) = bits_length (base_spec ns) ->
      int_shift_reaches (base_spec ns)
        (Z.of_nat (List.length (names ns))) ->
      append ns tgt 0 = Some (String.append tgt "0")).
Proof.
  set (s := base_spec ns).
  assert (Hbit : int_shift_reaches s (Z.of_nat (List.length (names ns))) ->
            do_bit_append s tgt 0 (names ns)
            = Some (String.append tgt "0")).
  { intros Hreach. unfold do_bit_append.
    now rewrite do_bit_append_loop_zero. }
  split; [|split].
  - intros Hmode name0 more Hnames. unfold append. fold s.
    destruct (Z.eqb_spec (Z.of_nat (List.length (names ns)))
                (bits_length s)); [contradiction|].
    rewrite Hnames. cbn [List.length negb].
    replace (Z.of_nat (S (List.length more)) =? 0) with false
      by (symmetry; apply Z.eqb_neq; lia).
    cbn [negb]. unfold do_value_append.
    assert (Hvp : valid_part_of s 0 = 0) by reflexivity.
    rewrite Hvp.
    assert (Hat : names_at (name0 :: more) 0 = Some name0).
    { unfold names_at. cbn [List.length].
      replace (0 <? Z.of_nat (S (List.length more))) with true
        by (symmetry; apply Z.ltb_lt; lia).
      reflexivity. }
    rewrite Hat.
    destruct (has_size name0) eqn:Hs.
    + unfold print_name, append_skip_first, appender_append.
      cbn [first target working]. unfold print_residual.
      cbn [first target working]. cbn [deref Z.land convert].
      change (convert size_t 0) with 0. rewrite Z.land_0_l.
      rewrite (E_cast_zero s). reflexivity.
    + cbn [first]. change (Z.to_nat (convert int64_t 0 + 1)) with 1%nat.
      cbn [do_value_append_loop working Z.of_nat].
      assert (Hall : has_all s 0 (E_cast s 0) = true).
      { rewrite (E_cast_zero s). unfold has_all, op_and, deref.
        rewrite Z.land_0_l, (E_cast_zero s). reflexivity. }
      rewrite Hall, Hat, Hs. reflexivity.
  - intros Hnil. unfold append. rewrite Hnil. cbn [List.length Z.of_nat].
    destruct (0 =? bits_length (base_spec ns)); reflexivity.
  - intros Hmode Hreach. unfold append. fold s.
    rewrite Hmode, Z.eqb_refl. now apply Hbit.
Qed.

Lemma zero_value_rendering_witness :
  append greek_values_spec "" 0 = Some "0"%string.
Proof.
  destruct (zero_value_rendering greek_values_spec "") as [H _].
  apply (H ltac:(vm_compute; discriminate) ""%string
           ["alpha"; "beta"; "gamma"]%string eq_refl).
Defined.

Lemma append_made_spec_witness :
  append rgb_names_spec "" 5
  = Some (PerBitWords.render_bits (base_spec rgb_names_spec) "" 5
            (names rgb_names_spec)).
Proof.
  apply (append_made_spec int_t "red,green,blue" wrapclip_none).
  - reflexivity.
  - discriminate.
  - left. cbn. lia.
  - unfold is_E, in_range; cbn; lia.
Defined.

(** ** The rendering only appends *)

Module SinkFacts.

Section Sink.

Variable s : bitmask_enum_spec.
Variable tgt : string.

Lemma print_name_onto (st : render) (name : string) (cleared : Z) :
  print_name (onto tgt st) name cleared
  = onto tgt (print_name st name cleared).
Proof.
  unfold print_name, onto, append_skip_first, appender_append.
  cbn [target first working].
  destruct (first st); cbn [target first working];
    now rewrite !string_app_assoc.
Qed.

Lemma print_residual_onto (st : render) :
  print_residual (onto tgt st)
  = String.append tgt (print_residual st).
Proof.
  unfold print_residual, onto, append_skip_first, append_num16.
  cbn [target first working].
  destruct (negb (deref (working st) =? 0) || first st); [|reflexivity].
  destruct (first st); now rewrite !string_app_assoc.
Qed.

Lemma do_bit_append_loop_onto (N : nat) (names : list string) (ndx : nat)
  (st : render) :
  do_bit_append_loop s N names ndx (onto tgt st)
  = option_map (onto tgt) (do_bit_append_loop s N names ndx st).
Proof.
  revert st. induction ndx as [|ndx IH]; intros st; [reflexivity|].
  cbn [do_bit_append_loop]. unfold do_bit_append_step.
  destruct (make_at s (Z.of_nat (S ndx))) as [mask|]; [|reflexivity].
  change (working (onto tgt st)) with (working st).
  destruct (has s (working st) mask); [|apply IH].
  destruct (names_at names (Z.of_nat N - Z.of_nat (S ndx))) as [name|];
    [|reflexivity].
  destruct (has_size name); [|apply IH].
  rewrite print_name_onto. apply IH.
Qed.

Lemma do_value_append_loop_onto (names : list string) (k : nat)
  (st : render) :
  do_value_append_loop s names k (onto tgt st)
  = option_map (onto tgt) (do_value_append_loop s names k st).
Proof.
  revert st. induction k as [|k IH]; intros st; [reflexivity|].
  cbn [do_value_append_loop].
  change (working (onto tgt st)) with (working st).
  destruct (has_all s (working st) (E_cast s (Z.of_nat k))); [|apply IH].
  destruct (names_at names (Z.of_nat k)) as [name|]; [|reflexivity].
  destruct (has_size name); [|apply IH].
  rewrite print_name_onto.
  match goal with
  | |- context [onto tgt (print_name ?a ?b ?c)] =>
      set (st' := print_name a b c)
  end.
  change (working (onto tgt st')) with (working st').
  destruct (valid_part_of s (working st') =? 0); [reflexivity|apply IH].
Qed.

End Sink.

End SinkFacts.
Import SinkFacts.

(** The rendering only appends: in every mode the text added to the sink
    is the text rendered into an empty sink, whatever the sink holds, and
    the rendering is undefined for the one exactly when it is for the
    other. *)
Theorem append_only_appends (ns : bitmask_enum_names_spec) (tgt : string)
  (v : Z) :
  append ns tgt v = option_map (String.append tgt) (append ns "" v).
Proof.
  set (s := base_spec ns).
  assert (Hst : forall t, Render t true v = onto t (Render "" true v))
    by (intros t; unfold onto; cbn; now rewrite string_app_nil_r).
  unfold append. fold s.
  destruct (Z.of_nat (List.length (names ns)) =? bits_length s).
  - unfold do_bit_append. rewrite (Hst tgt), do_bit_append_loop_onto.
    destruct (do_bit_append_loop s (List.length (names ns)) (names ns)
                (List.length (names ns)) (Render "" true v)) as [st|];
      [|reflexivity].
    cbn [option_map]. now rewrite print_residual_onto.
  - destruct (negb (Z.of_nat (List.length (names ns)) =? 0));
      [|reflexivity].
    unfold do_value_append.
    destruct (names_at (names ns) (valid_part_of s v)) as [name|];
      [|reflexivity].
    rewrite (Hst tgt).
    assert (Hst1 : (if has_size name
                    then print_name (onto tgt (Render "" true v)) name
                           (E_cast s
                              (Z.land (convert size_t (deref v))
                                 (convert size_t
                                    (Z.lnot (all_valid_bits s)))))
                    else onto tgt (Render "" true v))
                   = onto tgt
                       (if has_size name
                        then print_name (Render "" true v) name
                               (E_cast s
                                  (Z.land (convert size_t (deref v))
                                     (convert size_t
                                        (Z.lnot (all_valid_bits s)))))
                        else Render "" true v)).
    { destruct (has_size name); [apply print_name_onto|reflexivity]. }
    rewrite Hst1.
    match goal with
    | |- context [onto tgt ?x] => set (st1 := x)
    end.
    change (first (onto tgt st1)) with (first st1).
    destruct (first st1).
    + rewrite do_value_append_loop_onto.
      destruct (do_value_append_loop s (names ns)
                  (Z.to_nat (convert int64_t (valid_part_of s v) + 1)) st1)
        as [st2|]; [|reflexivity].
      cbn [option_map]. now rewrite print_residual_onto.
    + cbn [option_map]. now rewrite print_residual_onto.
Qed.

(** ** The range of a contiguous mask *)

(** For the valid bits [2 ^ k - 1], [k] bits from the least significant
    one, that fit the underlying type without reaching the sign bit or the
    64th bit, [bits_length] is [k] and [range_length] is [2 ^ k], the
    number of values with only valid bits; [max_value] is [2 ^ k - 1]. *)
Theorem range_length_contiguous (s : bitmask_enum_spec) (k : Z) :
  validbits s = 2 ^ k - 1 ->
  1 <= k <= width (underlying s) -> k < 64 ->
  is_signed (underlying s) = false \/ k < width (underlying s) ->
  bits_length s = k
  /\ deref (max_value s) = 2 ^ k - 1
  /\ range_length s = 2 ^ k
  /\ range_length s = 2 ^ bits_length s.
Proof.
  intros HV Hk H64 Hsg.
  assert (Hpos : 0 < 2 ^ k) by (apply Z.pow_pos_nonneg; lia).
  assert (H2 : 2 <= 2 ^ k).
  { change 2 with (2 ^ 1) at 1. apply Z.pow_le_mono_r; lia. }
  assert (Hlen : bits_length s = k).
  { unfold bits_length, bit_width, valid_bits_v. rewrite HV.
    destruct (Z.eqb_spec (2 ^ k - 1) 0); [lia|].
    replace (2 ^ k - 1) with (Z.pred (2 ^ k)) by lia.
    rewrite Z.log2_pred_pow2 by lia. lia. }
  assert (Hmax : max_value s = 2 ^ k - 1).
  { unfold max_value, do_max_value, E_cast, valid_bits_v. rewrite HV.
    apply convert_id. unfold in_range, min_int, max_int.
    pose proof (width_pos (underlying s)) as Hw.
    destruct (is_signed (underlying s)).
    - destruct Hsg as [|Hlt]; [discriminate|].
      assert (2 ^ k <= 2 ^ (width (underlying s) - 1))
        by (apply Z.pow_le_mono_r; lia).
      lia.
    - assert (2 ^ k <= 2 ^ width (underlying s))
        by (apply Z.pow_le_mono_r; lia).
      lia. }
  assert (Hrange : range_length s = 2 ^ k).
  { unfold range_length, to_integer. rewrite Hmax.
    change (convert size_t) with (fun x => x mod 2 ^ 64). cbv beta.
    assert (2 ^ k < 2 ^ 64) by (apply Z.pow_lt_mono_r; lia).
    rewrite (Z.mod_small (2 ^ k - 1)) by lia.
    replace (2 ^ k - 1 + 1) with (2 ^ k) by lia.
    apply Z.mod_small. lia. }
  unfold deref. repeat split; try assumption. now rewrite Hlen.
Qed.

Lemma range_length_contiguous_witness :
  range_length (rgb_spec wrapclip_none) = 2 ^ 3.
Proof.
  apply (range_length_contiguous (rgb_spec wrapclip_none) 3).
  - reflexivity.
  - cbn. lia.
  - lia.
  - right. cbn. lia.
Defined.
